(** * Pivot calibration with and without RANSAC (MPHY0026 notebooks)

    A shallow embedding of the course notebooks that carry code:

    - [Notebook]: the cells of [doc/notebooks/RANSAC.ipynb], which load the
      tracking matrices, noise a growing number of them and calibrate them
      with and without RANSAC;
    - [TrackingSim]: the tracking-error notebook, which measures the error
      of a pointer tip against the noise on the tracked marker;
    - [MonteCarlo]: the Monte Carlo demonstration, its two sampling styles
      and its two confidence intervals;
    - [PivotCore]: the pivot solver as the specification describes it (the
      notebooks only call a library for it).

    Numbers are the notebooks' floating-point values read as real numbers
    (exact arithmetic): a tracking matrix is a 4x4 array of reals, a draw of
    [np.random.rand()] is a real in [0, 1).  The process-wide generators
    ([random], [numpy.random]) are threaded as explicit state, and library
    routines that the notebooks call without defining are parameters. *)

From Stdlib Require Import String.
From Stdlib Require Import Reals Lra Lia Psatz List Bool Arith ZArith.
Import ListNotations.
Local Open Scope R_scope.

(* ====================================================================== *)
(** ** 3-vectors, 3x3 matrices and 4x4 homogeneous matrices *)
(* ====================================================================== *)

Module Geometry.

Record Vec3 : Type := mkVec3 { vx : R; vy : R; vz : R }.

(** Row-major 3x3 matrix: [mIJ] is row I, column J. *)
Record Mat3 : Type := mkMat3 {
  m00 : R; m01 : R; m02 : R;
  m10 : R; m11 : R; m12 : R;
  m20 : R; m21 : R; m22 : R }.

Definition vzero : Vec3 := mkVec3 0 0 0.

Definition vadd (a b : Vec3) : Vec3 :=
  mkVec3 (vx a + vx b) (vy a + vy b) (vz a + vz b).

Definition vsub (a b : Vec3) : Vec3 :=
  mkVec3 (vx a - vx b) (vy a - vy b) (vz a - vz b).

Definition vscale (k : R) (a : Vec3) : Vec3 :=
  mkVec3 (k * vx a) (k * vy a) (k * vz a).

Definition dot (a b : Vec3) : R := vx a * vx b + vy a * vy b + vz a * vz b.

Definition normsq (a : Vec3) : R := dot a a.

(** [np.linalg.norm] of a 3-vector. *)
Definition norm (a : Vec3) : R := sqrt (normsq a).

(** Euclidean distance between two points. *)
Definition dist (a b : Vec3) : R := norm (vsub a b).

Definition vsum (l : list Vec3) : Vec3 := fold_right vadd vzero l.

Definition I3 : Mat3 := mkMat3 1 0 0  0 1 0  0 0 1.

Definition mzero : Mat3 := mkMat3 0 0 0  0 0 0  0 0 0.

Definition madd (A B : Mat3) : Mat3 :=
  mkMat3 (m00 A + m00 B) (m01 A + m01 B) (m02 A + m02 B)
         (m10 A + m10 B) (m11 A + m11 B) (m12 A + m12 B)
         (m20 A + m20 B) (m21 A + m21 B) (m22 A + m22 B).

Definition msub (A B : Mat3) : Mat3 :=
  mkMat3 (m00 A - m00 B) (m01 A - m01 B) (m02 A - m02 B)
         (m10 A - m10 B) (m11 A - m11 B) (m12 A - m12 B)
         (m20 A - m20 B) (m21 A - m21 B) (m22 A - m22 B).

Definition mscale (k : R) (A : Mat3) : Mat3 :=
  mkMat3 (k * m00 A) (k * m01 A) (k * m02 A)
         (k * m10 A) (k * m11 A) (k * m12 A)
         (k * m20 A) (k * m21 A) (k * m22 A).

Definition mtranspose (A : Mat3) : Mat3 :=
  mkMat3 (m00 A) (m10 A) (m20 A)
         (m01 A) (m11 A) (m21 A)
         (m02 A) (m12 A) (m22 A).

(** Matrix product [A @ B]. *)
Definition mmul (A B : Mat3) : Mat3 :=
  mkMat3
    (m00 A * m00 B + m01 A * m10 B + m02 A * m20 B)
    (m00 A * m01 B + m01 A * m11 B + m02 A * m21 B)
    (m00 A * m02 B + m01 A * m12 B + m02 A * m22 B)
    (m10 A * m00 B + m11 A * m10 B + m12 A * m20 B)
    (m10 A * m01 B + m11 A * m11 B + m12 A * m21 B)
    (m10 A * m02 B + m11 A * m12 B + m12 A * m22 B)
    (m20 A * m00 B + m21 A * m10 B + m22 A * m20 B)
    (m20 A * m01 B + m21 A * m11 B + m22 A * m21 B)
    (m20 A * m02 B + m21 A * m12 B + m22 A * m22 B).

(** Matrix times column vector [A @ v]. *)
Definition mvmul (A : Mat3) (v : Vec3) : Vec3 :=
  mkVec3 (m00 A * vx v + m01 A * vy v + m02 A * vz v)
         (m10 A * vx v + m11 A * vy v + m12 A * vz v)
         (m20 A * vx v + m21 A * vy v + m22 A * vz v).

(** Outer product [b c^T] of a column and a row. *)
Definition outer (b c : Vec3) : Mat3 :=
  mkMat3 (vx b * vx c) (vx b * vy c) (vx b * vz c)
         (vy b * vx c) (vy b * vy c) (vy b * vz c)
         (vz b * vx c) (vz b * vy c) (vz b * vz c).

Definition det3 (A : Mat3) : R :=
  m00 A * (m11 A * m22 A - m12 A * m21 A)
  - m01 A * (m10 A * m22 A - m12 A * m20 A)
  + m02 A * (m10 A * m21 A - m11 A * m20 A).

(** Adjugate (transposed cofactor matrix): [A * adj A = det A * I]. *)
Definition adj3 (A : Mat3) : Mat3 :=
  mkMat3
    (m11 A * m22 A - m12 A * m21 A)
    (m02 A * m21 A - m01 A * m22 A)
    (m01 A * m12 A - m02 A * m11 A)
    (m12 A * m20 A - m10 A * m22 A)
    (m00 A * m22 A - m02 A * m20 A)
    (m02 A * m10 A - m00 A * m12 A)
    (m10 A * m21 A - m11 A * m20 A)
    (m01 A * m20 A - m00 A * m21 A)
    (m00 A * m11 A - m01 A * m10 A).

Definition msum (l : list Mat3) : Mat3 := fold_right madd mzero l.

(** [R^T R = I]. *)
Definition orthonormal (A : Mat3) : Prop := mmul (mtranspose A) A = I3.

(** A proper rotation: orthonormal with determinant +1. *)
Definition is_rotation (A : Mat3) : Prop := orthonormal A /\ det3 A = 1.

(** A 4x4 array, kept in block form
<<
      [ rot_block   trans_col ]
      [ bottom_row  corner    ]
>>
    (all sixteen entries are there; nothing is assumed of the last row). *)
Record Mat4 : Type := mkMat4 {
  rot_block : Mat3;
  trans_col : Vec3;
  bottom_row : Vec3;
  corner : R }.

(** The 4x4 product [A @ B], written block by block. *)
Definition matmul4 (A B : Mat4) : Mat4 :=
  mkMat4
    (madd (mmul (rot_block A) (rot_block B)) (outer (trans_col A) (bottom_row B)))
    (vadd (mvmul (rot_block A) (trans_col B)) (vscale (corner B) (trans_col A)))
    (vadd (mvmul (mtranspose (rot_block B)) (bottom_row A))
          (vscale (corner A) (bottom_row B)))
    (dot (bottom_row A) (trans_col B) + corner A * corner B).

Definition identity4 : Mat4 := mkMat4 I3 vzero vzero 1.

(** The RigidPose invariant: last row [0 0 0 1] and a proper rotation block. *)
Definition rigid (T : Mat4) : Prop :=
  bottom_row T = vzero /\ corner T = 1 /\ is_rotation (rot_block T).

(** *** Equality is decidable (classically, as for any real numbers) *)

Definition Vec3_eq_dec (a b : Vec3) : {a = b} + {a <> b}.
Proof.
  destruct a as [a0 a1 a2], b as [b0 b1 b2].
  destruct (Req_dec_T a0 b0); [|right; congruence].
  destruct (Req_dec_T a1 b1); [|right; congruence].
  destruct (Req_dec_T a2 b2); [|right; congruence].
  left; congruence.
Defined.

Definition Mat3_eq_dec (A B : Mat3) : {A = B} + {A <> B}.
Proof.
  destruct A as [a0 a1 a2 a3 a4 a5 a6 a7 a8], B as [b0 b1 b2 b3 b4 b5 b6 b7 b8].
  destruct (Req_dec_T a0 b0); [|right; congruence].
  destruct (Req_dec_T a1 b1); [|right; congruence].
  destruct (Req_dec_T a2 b2); [|right; congruence].
  destruct (Req_dec_T a3 b3); [|right; congruence].
  destruct (Req_dec_T a4 b4); [|right; congruence].
  destruct (Req_dec_T a5 b5); [|right; congruence].
  destruct (Req_dec_T a6 b6); [|right; congruence].
  destruct (Req_dec_T a7 b7); [|right; congruence].
  destruct (Req_dec_T a8 b8); [|right; congruence].
  left; congruence.
Defined.

(** *** Euler angles and homogeneous matrices

    The notebook builds its noise transforms with two helpers of
    [sksurgerycore.transforms.matrix] that it only calls.  The constructions
    below are the textbook ones; they show that what the notebook relies on
    from those helpers can be met. *)

Definition deg2rad (d : R) : R := d * PI / 180.

Definition rx_matrix (a : R) : Mat3 :=
  mkMat3 1 0 0
         0 (cos a) (- sin a)
         0 (sin a) (cos a).

Definition ry_matrix (a : R) : Mat3 :=
  mkMat3 (cos a) 0 (sin a)
         0 1 0
         (- sin a) 0 (cos a).

Definition rz_matrix (a : R) : Mat3 :=
  mkMat3 (cos a) (- sin a) 0
         (sin a) (cos a) 0
         0 0 1.

(** Rotation for the Euler sequence z, y, x with angles in degrees. *)
Definition euler_zyx_degrees (angle_a angle_b angle_c : R) : Mat3 :=
  mmul (mmul (rz_matrix (deg2rad angle_a)) (ry_matrix (deg2rad angle_b)))
       (rx_matrix (deg2rad angle_c)).

(** The homogeneous matrix with rotation block [rot_m], translation column
    [trans_v] and last row [0 0 0 1]. *)
Definition homogeneous (rot_m : Mat3) (trans_v : Vec3) : Mat4 :=
  mkMat4 rot_m trans_v vzero 1.

(** The orthonormality check of a pose's rotation block, as a test. *)
Definition orthonormality_check (T : Mat4) : bool :=
  if Mat3_eq_dec (mmul (mtranspose (rot_block T)) (rot_block T)) I3
  then (if Req_dec_T (det3 (rot_block T)) 1 then true else false)
  else false.

(** *** Algebra *)

Ltac crush_vec :=
  intros;
  repeat match goal with
         | v : Vec3 |- _ => destruct v
         | A : Mat3 |- _ => destruct A
         | T : Mat4 |- _ => destruct T
         end;
  cbv [vadd vsub vscale dot normsq vzero I3 mzero madd msub mscale
       mtranspose mmul mvmul outer det3 adj3 matmul4 identity4
       vx vy vz m00 m01 m02 m10 m11 m12 m20 m21 m22
       rot_block trans_col bottom_row corner];
  first [ ring | f_equal; ring | idtac ].

Lemma mmul_assoc (A B C : Mat3) : mmul (mmul A B) C = mmul A (mmul B C).
Proof. crush_vec. Qed.

Lemma mmul_I3_l (A : Mat3) : mmul I3 A = A.
Proof. crush_vec. Qed.

Lemma mtranspose_mmul (A B : Mat3) :
  mtranspose (mmul A B) = mmul (mtranspose B) (mtranspose A).
Proof. crush_vec. Qed.

Lemma det3_mmul (A B : Mat3) : det3 (mmul A B) = det3 A * det3 B.
Proof. crush_vec. Qed.

Lemma det3_I3 : det3 I3 = 1.
Proof. crush_vec. Qed.

Lemma mvmul_vzero (A : Mat3) : mvmul A vzero = vzero.
Proof. crush_vec. Qed.

Lemma outer_vzero_r (b : Vec3) : outer b vzero = mzero.
Proof. crush_vec. Qed.

Lemma madd_mzero_r (A : Mat3) : madd A mzero = A.
Proof. crush_vec. Qed.

Lemma vadd_vzero_r (a : Vec3) : vadd a vzero = a.
Proof. crush_vec. Qed.

Lemma vscale_1 (a : Vec3) : vscale 1 a = a.
Proof. crush_vec. Qed.

Lemma vscale_vzero (k : R) : vscale k vzero = vzero.
Proof. crush_vec. Qed.

Lemma normsq_nonneg (a : Vec3) : 0 <= normsq a.
Proof. destruct a; cbv [normsq dot vx vy vz]; nra. Qed.

Lemma normsq_zero_iff (a : Vec3) : normsq a = 0 <-> a = vzero.
Proof.
  destruct a as [x y z]; cbv [normsq dot vx vy vz vzero]; split.
  - intros H. assert (x = 0) by nra. assert (y = 0) by nra. assert (z = 0) by nra.
    subst; reflexivity.
  - intros H; injection H as -> -> ->; ring.
Qed.

(** *** Rotations are closed under product *)

Lemma orthonormal_I3 : orthonormal I3.
Proof. unfold orthonormal. crush_vec. Qed.

Lemma orthonormal_mmul (A B : Mat3) :
  orthonormal A -> orthonormal B -> orthonormal (mmul A B).
Proof.
  unfold orthonormal; intros HA HB.
  rewrite mtranspose_mmul, mmul_assoc, <- (mmul_assoc (mtranspose A) A B), HA, mmul_I3_l.
  exact HB.
Qed.

Lemma is_rotation_I3 : is_rotation I3.
Proof. split; [apply orthonormal_I3 | apply det3_I3]. Qed.

Lemma is_rotation_mmul (A B : Mat3) :
  is_rotation A -> is_rotation B -> is_rotation (mmul A B).
Proof.
  intros [HA dA] [HB dB]; split.
  - now apply orthonormal_mmul.
  - rewrite det3_mmul, dA, dB; ring.
Qed.

Ltac crush_trig a :=
  pose proof (sin2_cos2 a) as Hsc; unfold Rsqr in Hsc;
  cbv [is_rotation orthonormal rx_matrix ry_matrix
       rz_matrix mmul mtranspose det3 I3
       m00 m01 m02 m10 m11 m12 m20 m21 m22];
  split; [f_equal; nra | nra].

Lemma is_rotation_rx (a : R) : is_rotation (rx_matrix a).
Proof. crush_trig a. Qed.

Lemma is_rotation_ry (a : R) : is_rotation (ry_matrix a).
Proof. crush_trig a. Qed.

Lemma is_rotation_rz (a : R) : is_rotation (rz_matrix a).
Proof. crush_trig a. Qed.

Lemma is_rotation_euler (a b c : R) : is_rotation (euler_zyx_degrees a b c).
Proof.
  unfold euler_zyx_degrees.
  repeat apply is_rotation_mmul;
    [apply is_rotation_rz | apply is_rotation_ry | apply is_rotation_rx].
Qed.

Lemma rigid_identity4 : rigid identity4.
Proof. repeat split; try reflexivity; apply is_rotation_I3. Qed.

Lemma rigid_homogeneous (Rm : Mat3) (t : Vec3) :
  is_rotation Rm -> rigid (homogeneous Rm t).
Proof. intros H; repeat split; try reflexivity; apply H. Qed.

(** The product of two rigid transforms, block by block. *)
Lemma matmul4_rigid_blocks (A B : Mat4) :
  bottom_row A = vzero -> corner A = 1 -> bottom_row B = vzero -> corner B = 1 ->
  matmul4 A B =
  mkMat4 (mmul (rot_block A) (rot_block B))
         (vadd (mvmul (rot_block A) (trans_col B)) (trans_col A))
         vzero 1.
Proof.
  destruct A as [RA tA bA cA], B as [RB tB bB cB]; cbn [bottom_row corner rot_block trans_col].
  intros -> -> -> ->. unfold matmul4; cbn [bottom_row corner rot_block trans_col].
  rewrite outer_vzero_r, madd_mzero_r, vscale_1, mvmul_vzero, vscale_vzero, vadd_vzero_r.
  f_equal. cbv [dot vzero vx vy vz]. ring.
Qed.

Lemma rigid_matmul4 (A B : Mat4) : rigid A -> rigid B -> rigid (matmul4 A B).
Proof.
  intros (bA & cA & rA) (bB & cB & rB).
  rewrite (matmul4_rigid_blocks A B bA cA bB cB).
  repeat split; cbn [bottom_row corner rot_block]; try reflexivity;
    apply is_rotation_mmul; [apply rA | apply rB | apply rA | apply rB].
Qed.

Lemma orthonormality_check_iff (T : Mat4) :
  orthonormality_check T = true <-> is_rotation (rot_block T).
Proof.
  unfold orthonormality_check, is_rotation, orthonormal.
  destruct (Mat3_eq_dec _ _) as [H | H]; [destruct (Req_dec_T _ _) as [D | D] |];
    split; intros; try discriminate; try tauto.
Qed.

(** *** Points in homogeneous coordinates *)

(** A column vector of four coordinates: [xyz] over the homogeneous one. *)
Record Vec4 : Type := mkVec4 { xyz : Vec3; hom : R }.

(** A 3D point as a 4 x 1 column vector. *)
Definition point (p : Vec3) : Vec4 := mkVec4 p 1.

(** [T @ x] for a 4 x 4 matrix and a 4 x 1 column vector. *)
Definition matvec4 (T : Mat4) (x : Vec4) : Vec4 :=
  mkVec4 (vadd (mvmul (rot_block T) (xyz x)) (vscale (hom x) (trans_col T)))
         (dot (bottom_row T) (xyz x) + corner T * hom x).

(** Converting coordinates twice is converting with the product. *)
Lemma matvec4_matmul4 (A B : Mat4) (x : Vec4) :
  matvec4 (matmul4 A B) x = matvec4 A (matvec4 B x).
Proof.
  destruct A as [[a00 a01 a02 a10 a11 a12 a20 a21 a22] [ta0 ta1 ta2] [ba0 ba1 ba2] ca].
  destruct B as [[b00 b01 b02 b10 b11 b12 b20 b21 b22] [tb0 tb1 tb2] [bb0 bb1 bb2] cb].
  destruct x as [[x0 x1 x2] h].
  cbv [matvec4 matmul4 vadd vscale dot madd mmul mvmul outer mtranspose
       vx vy vz m00 m01 m02 m10 m11 m12 m20 m21 m22
       rot_block trans_col bottom_row corner xyz hom].
  f_equal; [f_equal|]; ring.
Qed.

(** A rigid transform sends points to points. *)
Lemma matvec4_point (T : Mat4) (p : Vec3) :
  rigid T -> matvec4 T (point p) = point (vadd (mvmul (rot_block T) p) (trans_col T)).
Proof.
  intros (Hb & Hc & _). unfold matvec4, point. cbn [xyz hom].
  rewrite Hb, Hc, vscale_1. f_equal.
  destruct p; cbv [dot vzero vx vy vz]. ring.
Qed.

Lemma orthonormal_preserves_normsq (A : Mat3) (v : Vec3) :
  orthonormal A -> normsq (mvmul A v) = normsq v.
Proof.
  unfold orthonormal. destruct A as [a b c d e f g h i], v as [x y z].
  cbv [mmul mtranspose I3 m00 m01 m02 m10 m11 m12 m20 m21 m22].
  intros H. injection H as H00 H01 H02 H10 H11 H12 H20 H21 H22.
  cbv [normsq dot mvmul vx vy vz m00 m01 m02 m10 m11 m12 m20 m21 m22].
  replace ((a * x + b * y + c * z) * (a * x + b * y + c * z) +
           (d * x + e * y + f * z) * (d * x + e * y + f * z) +
           (g * x + h * y + i * z) * (g * x + h * y + i * z))
    with ((a * a + d * d + g * g) * (x * x) + (b * b + e * e + h * h) * (y * y)
          + (c * c + f * f + i * i) * (z * z)
          + 2 * (a * b + d * e + g * h) * (x * y)
          + 2 * (a * c + d * f + g * i) * (x * z)
          + 2 * (b * c + e * f + h * i) * (y * z)) by ring.
  rewrite H00, H11, H22, H01, H02, H12. ring.
Qed.

Lemma mvmul_vsub (A : Mat3) (u v : Vec3) :
  mvmul A (vsub u v) = vsub (mvmul A u) (mvmul A v).
Proof.
  destruct A, u, v.
  cbv [mvmul vsub vx vy vz m00 m01 m02 m10 m11 m12 m20 m21 m22]. f_equal; ring.
Qed.

(** A rigid transform keeps the distance between two points. *)
Lemma rigid_preserves_distance (T : Mat4) (p q : Vec3) :
  rigid T ->
  normsq (vsub (xyz (matvec4 T (point p))) (xyz (matvec4 T (point q))))
  = normsq (vsub p q).
Proof.
  intros HT. rewrite !(matvec4_point T _ HT). cbn [point xyz].
  destruct HT as (_ & _ & Ho & _).
  rewrite <- (orthonormal_preserves_normsq (rot_block T) (vsub p q) Ho), mvmul_vsub.
  f_equal.
  destruct (mvmul (rot_block T) p), (mvmul (rot_block T) q), (trans_col T).
  cbv [vsub vadd vx vy vz]. f_equal; ring.
Qed.

(** *** Lengths *)

Lemma norm_nonneg (a : Vec3) : 0 <= norm a.
Proof. apply sqrt_pos. Qed.

Lemma norm_sqr (a : Vec3) : norm a * norm a = normsq a.
Proof. apply sqrt_sqrt, normsq_nonneg. Qed.

Lemma norm_le_of_normsq (a : Vec3) (d : R) :
  0 <= d -> normsq a <= d * d -> norm a <= d.
Proof.
  intros Hd H. unfold norm. rewrite <- (sqrt_square d Hd).
  apply sqrt_le_1_alt. exact H.
Qed.

Lemma cauchy_schwarz (a b : Vec3) : dot a b * dot a b <= normsq a * normsq b.
Proof.
  destruct a as [a0 a1 a2], b as [b0 b1 b2]. cbv [normsq dot vx vy vz].
  pose proof (Rle_0_sqr (a0 * b1 - a1 * b0)) as H01.
  pose proof (Rle_0_sqr (a0 * b2 - a2 * b0)) as H02.
  pose proof (Rle_0_sqr (a1 * b2 - a2 * b1)) as H12.
  unfold Rsqr in *. lra.
Qed.

Lemma neg_dot_le_norms (a b : Vec3) : - dot a b <= norm a * norm b.
Proof.
  pose proof (cauchy_schwarz a b) as Hcs.
  pose proof (norm_nonneg a) as Ha. pose proof (norm_nonneg b) as Hb.
  rewrite <- (norm_sqr a), <- (norm_sqr b) in Hcs.
  set (x := dot a b) in *. set (na := norm a) in *. set (nb := norm b) in *.
  assert (Hy : 0 <= na * nb) by nra.
  destruct (Rle_dec (- x) (na * nb)) as [H | H]; [exact H | exfalso].
  assert (Hgt : na * nb < - x) by lra.
  assert (Hsq : (na * nb) * (na * nb) < (- x) * (- x)) by nra.
  nra.
Qed.

End Geometry.


(* ====================================================================== *)
(** ** The RANSAC notebook: contaminating tracking data *)
(* ====================================================================== *)

Module Notebook.
Import Geometry.

(** *** Parameters to play with *)

Definition number_of_matrices_to_add_noise_to : nat := 100.
Definition rotation_offset_in_degrees : R := 5.
Definition translation_offset_in_millimetres : R := 5.
Definition number_iterations : nat := 10.
Definition error_in_millimetres : R := 4.
Definition minimum_percentage : R := 25 / 100.

(** Python's [range(start, stop, step)] for a positive step. *)
Definition py_range (start stop step : nat) : list nat :=
  map (fun i => (start + i * step)%nat) (seq 0 ((stop - start + (step - 1)) / step)).

(** [l[i] = x] on the first axis of an array: [None] stands for the
    [IndexError] of an index past the end. *)
Fixpoint set_item {A : Type} (l : list A) (i : nat) (x : A) : option (list A) :=
  match l, i with
  | [], _ => None
  | _ :: t, O => Some (x :: t)
  | h :: t, S j => option_map (cons h) (set_item t j x)
  end.

(** Exceptions a cell can end with: the two the cell's own statements can
    raise, and whatever else a called library raises. *)
Inductive PyExc : Type :=
| ValueError
| IndexError
| OtherException (name : string).

Section Cell.

(** The process-wide generators the notebook draws from: Python's [random]
    module and NumPy's legacy global generator.  Their algorithms are not
    part of the notebook; what the notebook relies on is stated below as
    [sample_contract] and [rand_contract]. *)
Variable PyRandom : Type.
Variable NpRandom : Type.

(** [random.sample(population, k)]: [None] is its [ValueError]. *)
Variable random_sample : list nat -> nat -> PyRandom -> option (list nat) * PyRandom.

(** [np.random.rand()]. *)
Variable np_rand : NpRandom -> R * NpRandom.

(** [m.construct_rotm_from_euler(a, b, c, sequence, is_in_radians)] and
    [m.construct_rigid_transformation(rot_m, trans_v)] of
    [sksurgerycore.transforms.matrix]: called, not defined, by the notebook. *)
Variable construct_rotm_from_euler : R -> R -> R -> string -> bool -> Mat3.
Variable construct_rigid_transformation : Mat3 -> Vec3 -> Mat4.

(** The interpreter's global state, as far as the cell touches it. *)
Record World : Type := mkWorld { py_random : PyRandom; np_random : NpRandom }.

(** A computation of the cell: it reads and updates the global state and
    either returns or raises. *)
Definition Cell (A : Type) : Type := World -> (PyExc + A) * World.

Definition ret {A : Type} (x : A) : Cell A := fun w => (inr x, w).

Definition raise {A : Type} (e : PyExc) : Cell A := fun w => (inl e, w).

Definition bind {A B : Type} (c : Cell A) (k : A -> Cell B) : Cell B :=
  fun w => match c w with
           | (inr x, w') => k x w'
           | (inl e, w') => (inl e, w')
           end.

Notation "x <- c ;; k" := (bind c (fun x => k))
  (at level 61, c at next level, right associativity).

Definition call_np_rand : Cell R :=
  fun w => let (u, g) := np_rand (np_random w) in
           (inr u, mkWorld (py_random w) g).

Definition call_random_sample (population : list nat) (k : nat) : Cell (list nat) :=
  fun w => match random_sample population k (py_random w) with
           | (Some l, g) => (inr l, mkWorld g (np_random w))
           | (None, g) => (inl ValueError, mkWorld g (np_random w))
           end.

(** [(np.random.rand() * offset*2) - offset]. *)
Definition random_offset (offset : R) : Cell R :=
  u <- call_np_rand ;; ret (u * offset * 2 - offset).

(** The body of the inner loop up to [random_transform]: three angles, then
    three translations, drawn in this order. *)
Definition draw_random_transform : Cell Mat4 :=
  a <- random_offset rotation_offset_in_degrees ;;
  b <- random_offset rotation_offset_in_degrees ;;
  c <- random_offset rotation_offset_in_degrees ;;
  t0 <- random_offset translation_offset_in_millimetres ;;
  t1 <- random_offset translation_offset_in_millimetres ;;
  t2 <- random_offset translation_offset_in_millimetres ;;
  ret (construct_rigid_transformation
         (construct_rotm_from_euler a b c "zyx" false) (mkVec3 t0 t1 t2)).

(** [for random_index in random_indices: ...
       matrices_copy[random_index] = matrices_copy[random_index] @ random_transform] *)
Fixpoint add_noise (random_indices : list nat) (matrices_copy : list Mat4)
  : Cell (list Mat4) :=
  match random_indices with
  | [] => ret matrices_copy
  | random_index :: rest =>
      random_transform <- draw_random_transform ;;
      match nth_error matrices_copy random_index with
      | None => raise IndexError
      | Some M =>
          match set_item matrices_copy random_index (matmul4 M random_transform) with
          | None => raise IndexError
          | Some matrices_copy' => add_noise rest matrices_copy'
          end
      end
  end.

(** One pass of the outer loop up to the calibration calls: a fresh copy of
    the tracking matrices with [counter] of them, chosen at random, noised. *)
Definition contaminate (tracking_matrices : list Mat4) (counter : nat)
  : Cell (list Mat4) :=
  let indices := seq 0 (List.length tracking_matrices) in
  random_indices <- call_random_sample indices counter ;;
  add_noise random_indices tracking_matrices.

(** The two calibration routines of [sksurgerycalibration.algorithms.pivot].
    The notebook only calls them; each returns (offset, pivot, residual) or
    raises, and may use the global generators. *)
Variable pivot_calibration : list Mat4 -> Cell (Vec3 * Vec3 * R).
Variable pivot_calibration_with_ransac :
  list Mat4 -> nat -> R -> R -> Cell (Vec3 * Vec3 * R).

(** What the cell accumulates: [x_values], [rms_error_ls], [rms_error_RANSAC]. *)
Record Curves : Type := mkCurves {
  x_values : list nat;
  rms_error_ls : list R;
  rms_error_RANSAC : list R }.

(** The body of the outer loop for one [counter]. *)
Definition experiment_step (tracking_matrices : list Mat4) (acc : Curves)
  (counter : nat) : Cell Curves :=
  matrices_copy <- contaminate tracking_matrices counter ;;
  r2 <- pivot_calibration matrices_copy ;;
  r3 <- pivot_calibration_with_ransac matrices_copy number_iterations
          error_in_millimetres minimum_percentage ;;
  ret (mkCurves (x_values acc ++ [counter])
                (rms_error_ls acc ++ [snd r2])
                (rms_error_RANSAC acc ++ [snd r3])).

Fixpoint for_each {A S : Type} (body : S -> A -> Cell S) (xs : list A) (s : S)
  : Cell S :=
  match xs with
  | [] => ret s
  | x :: rest => s' <- body s x ;; for_each body rest s'
  end.

(** The whole cell. *)
Definition experiment (tracking_matrices : list Mat4) : Cell Curves :=
  for_each (experiment_step tracking_matrices)
           (py_range 0 number_of_matrices_to_add_noise_to 10)
           (mkCurves [] [] []).

(** *** What the notebook relies on from the libraries it calls *)

(** [random.sample] returns [k] distinct members of a population without
    repeats, provided the population is large enough. *)
Definition sample_contract : Prop :=
  forall population k g, NoDup population -> (k <= List.length population)%nat ->
    exists l, fst (random_sample population k g) = Some l /\
              List.length l = k /\ NoDup l /\ incl l population.

(** [np.random.rand()] is uniform over the half-open interval [0, 1). *)
Definition rand_contract : Prop :=
  forall g, 0 <= fst (np_rand g) < 1.

(** The Euler helper returns a proper rotation. *)
Definition euler_contract : Prop :=
  forall a b c, is_rotation (construct_rotm_from_euler a b c "zyx" false).

(** The rigid-transformation helper puts rotation and translation into a
    homogeneous matrix. *)
Definition rigid_contract : Prop :=
  forall rot_m trans_v,
    construct_rigid_transformation rot_m trans_v = mkMat4 rot_m trans_v vzero 1.

(** *** The contamination model *)

Definition within (offset x : R) : Prop := - offset <= x < offset.

(** A transform the inner loop can draw: Euler angles within the rotation
    offset (degrees) and translations within the translation offset (mm). *)
Definition noise_transform (T : Mat4) : Prop :=
  exists a b c t0 t1 t2,
    within rotation_offset_in_degrees a /\
    within rotation_offset_in_degrees b /\
    within rotation_offset_in_degrees c /\
    within translation_offset_in_millimetres t0 /\
    within translation_offset_in_millimetres t1 /\
    within translation_offset_in_millimetres t2 /\
    T = construct_rigid_transformation
          (construct_rotm_from_euler a b c "zyx" false) (mkVec3 t0 t1 t2).

(** [noisy] is [original] right-multiplied by one such transform. *)
Definition corrupted_from (original noisy : Mat4) : Prop :=
  exists T, noise_transform T /\ noisy = matmul4 original T.

(** [copy] is [tracking] with exactly the poses at [noised] corrupted. *)
Definition contaminated_at (noised : list nat) (tracking copy : list Mat4) : Prop :=
  List.length copy = List.length tracking /\
  forall i M, nth_error tracking i = Some M ->
    exists M', nth_error copy i = Some M' /\
               (In i noised -> corrupted_from M M') /\
               (~ In i noised -> M' = M).

(** *** Lists updated in place *)

Lemma set_item_Some {A : Type} (l : list A) (i : nat) (x : A) :
  (i < List.length l)%nat -> exists l', set_item l i x = Some l'.
Proof.
  revert i; induction l as [|h t IH]; intros [|j] Hi; cbn in *; try lia.
  - eauto.
  - destruct (IH j ltac:(lia)) as [l' ->]. cbn. eauto.
Qed.

Lemma set_item_length {A : Type} (l l' : list A) (i : nat) (x : A) :
  set_item l i x = Some l' -> List.length l' = List.length l.
Proof.
  revert i l'; induction l as [|h t IH]; intros [|j] l' H; cbn in *; try discriminate.
  - injection H as <-. reflexivity.
  - destruct (set_item t j x) as [t'|] eqn:E; cbn in H; [|discriminate].
    injection H as <-. cbn. f_equal. eapply IH; eauto.
Qed.

Lemma set_item_nth_error_same {A : Type} (l l' : list A) (i : nat) (x : A) :
  set_item l i x = Some l' -> nth_error l' i = Some x.
Proof.
  revert i l'; induction l as [|h t IH]; intros [|j] l' H; cbn in *; try discriminate.
  - injection H as <-. reflexivity.
  - destruct (set_item t j x) as [t'|] eqn:E; cbn in H; [|discriminate].
    injection H as <-. cbn. eapply IH; eauto.
Qed.

Lemma set_item_nth_error_other {A : Type} (l l' : list A) (i j : nat) (x : A) :
  set_item l i x = Some l' -> i <> j -> nth_error l' j = nth_error l j.
Proof.
  revert i j l'; induction l as [|h t IH]; intros [|i] j l' H Hij; cbn in *;
    try discriminate.
  - injection H as <-. destruct j; [lia | reflexivity].
  - destruct (set_item t i x) as [t'|] eqn:E; cbn in H; [|discriminate].
    injection H as <-. destruct j; cbn; [reflexivity|].
    eapply IH; eauto.
Qed.

(** *** Random offsets stay within their bounds *)

Hypothesis rand_ok : rand_contract.

Lemma random_offset_within (offset : R) (w : World) :
  0 < offset ->
  exists x g, random_offset offset w = (inr x, mkWorld (py_random w) g) /\
              within offset x.
Proof.
  intros Hoff. unfold random_offset, bind, call_np_rand, ret.
  pose proof (rand_ok (np_random w)) as Hu.
  destruct (np_rand (np_random w)) as [u g]; cbn [fst] in Hu.
  exists (u * offset * 2 - offset), g. split; [reflexivity|].
  unfold within. destruct Hu as [Hu0 Hu1]. split; nra.
Qed.

Lemma draw_random_transform_noise (w : World) :
  exists T g, draw_random_transform w = (inr T, mkWorld (py_random w) g) /\
              noise_transform T.
Proof.
  unfold draw_random_transform.
  assert (Hr : 0 < rotation_offset_in_degrees) by (unfold rotation_offset_in_degrees; lra).
  assert (Ht : 0 < translation_offset_in_millimetres)
    by (unfold translation_offset_in_millimetres; lra).
  destruct (random_offset_within _ w Hr) as (a & g1 & E1 & Ha).
  destruct (random_offset_within _ (mkWorld (py_random w) g1) Hr) as (b & g2 & E2 & Hb).
  destruct (random_offset_within _ (mkWorld (py_random w) g2) Hr) as (c & g3 & E3 & Hc).
  destruct (random_offset_within _ (mkWorld (py_random w) g3) Ht) as (t0 & g4 & E4 & H0).
  destruct (random_offset_within _ (mkWorld (py_random w) g4) Ht) as (t1 & g5 & E5 & H1).
  destruct (random_offset_within _ (mkWorld (py_random w) g5) Ht) as (t2 & g6 & E6 & H2).
  cbn [py_random] in *.
  exists (construct_rigid_transformation
            (construct_rotm_from_euler a b c "zyx" false) (mkVec3 t0 t1 t2)), g6.
  split.
  - unfold bind at 1. rewrite E1. unfold bind at 1. rewrite E2.
    unfold bind at 1. rewrite E3. unfold bind at 1. rewrite E4.
    unfold bind at 1. rewrite E5. unfold bind at 1. rewrite E6. reflexivity.
  - exists a, b, c, t0, t1, t2. repeat split; try apply Ha; try apply Hb;
      try apply Hc; try apply H0; try apply H1; try apply H2.
Qed.

(** *** The inner loop corrupts exactly the sampled poses, once each *)

Lemma add_noise_contaminated (random_indices : list nat) :
  forall (matrices_copy : list Mat4) (w : World),
    NoDup random_indices ->
    (forall i, In i random_indices -> (i < List.length matrices_copy)%nat) ->
    exists copy g,
      add_noise random_indices matrices_copy w = (inr copy, mkWorld (py_random w) g) /\
      contaminated_at random_indices matrices_copy copy.
Proof.
  induction random_indices as [|k rest IH]; intros mc w Hnd Hin.
  - exists mc, (np_random w). split.
    + destruct w; reflexivity.
    + split; [reflexivity|]. intros i M HM. exists M. repeat split; auto.
      intros [].
  - inversion Hnd as [|? ? Hk Hrest]; subst.
    destruct (draw_random_transform_noise w) as (T & g1 & ET & HT).
    assert (Hlt : (k < List.length mc)%nat) by (apply Hin; left; reflexivity).
    destruct (nth_error mc k) as [Mk|] eqn:EMk;
      [| apply nth_error_None in EMk; lia].
    destruct (set_item_Some mc k (matmul4 Mk T) Hlt) as [mc1 Eset].
    pose proof (set_item_length _ _ _ _ Eset) as Hlen1.
    destruct (IH mc1 (mkWorld (py_random w) g1) Hrest) as (copy & g2 & Erun & Hlen & Hc).
    { intros i Hi. rewrite Hlen1. apply Hin. right; exact Hi. }
    cbn [py_random] in Erun.
    exists copy, g2. split.
    + cbn [add_noise]. unfold bind at 1. rewrite ET, EMk, Eset. exact Erun.
    + split; [congruence|]. intros i M HM.
      destruct (Nat.eq_dec k i) as [<- | Hne].
      * (* the head index: set once, never touched again *)
        pose proof (set_item_nth_error_same _ _ _ _ Eset) as H1.
        destruct (Hc k _ H1) as (M' & EM' & _ & Hsame).
        exists M'. split; [exact EM'|]. split.
        -- intros _. rewrite (Hsame Hk). exists T. split; [exact HT|]. congruence.
        -- intros Hn. exfalso. apply Hn. left; reflexivity.
      * pose proof (set_item_nth_error_other _ _ _ i _ Eset Hne) as H1.
        rewrite HM in H1.
        destruct (Hc i _ H1) as (M' & EM' & Hcor & Hsame).
        exists M'. split; [exact EM'|]. split.
        -- intros [Hki | Hi]; [contradiction | auto].
        -- intros Hn. apply Hsame. intros Hi. apply Hn. right; exact Hi.
Qed.

Hypothesis sample_ok : sample_contract.

Lemma contaminate_contaminated (tracking_matrices : list Mat4) (counter : nat)
  (w : World) :
  (counter <= List.length tracking_matrices)%nat ->
  exists noised copy w',
    contaminate tracking_matrices counter w = (inr copy, w') /\
    List.length noised = counter /\ NoDup noised /\
    contaminated_at noised tracking_matrices copy.
Proof.
  intros Hle. unfold contaminate.
  pose proof (sample_ok (seq 0 (List.length tracking_matrices)) counter (py_random w)
                (seq_NoDup _ _)) as Hs.
  rewrite length_seq in Hs. destruct (Hs Hle) as (l & El & Hlen & Hnd & Hincl).
  destruct (random_sample _ counter (py_random w)) as [r g] eqn:Er. cbn [fst] in El. subst r.
  destruct (add_noise_contaminated l tracking_matrices (mkWorld g (np_random w)) Hnd)
    as (copy & g' & Erun & Hc).
  { intros i Hi. apply Hincl in Hi. apply in_seq in Hi. lia. }
  exists l, copy, (mkWorld g g'). repeat split; try assumption; try apply Hc.
  unfold bind, call_random_sample. rewrite Er. exact Erun.
Qed.

(** *** Rigidity survives the noise *)

Hypothesis euler_ok : euler_contract.
Hypothesis rigid_ok : rigid_contract.

Lemma noise_transform_rigid (T : Mat4) : noise_transform T -> rigid T.
Proof.
  intros (a & b & c & t0 & t1 & t2 & _ & _ & _ & _ & _ & _ & ->).
  rewrite rigid_ok. repeat split; cbn; try reflexivity; apply euler_ok.
Qed.

Lemma corrupted_from_rigid (M M' : Mat4) : rigid M -> corrupted_from M M' -> rigid M'.
Proof.
  intros HM (T & HT & ->). apply rigid_matmul4; [exact HM | now apply noise_transform_rigid].
Qed.

Lemma contaminated_at_rigid (noised : list nat) (tracking copy : list Mat4) :
  Forall rigid tracking -> contaminated_at noised tracking copy -> Forall rigid copy.
Proof.
  intros Hr [Hlen Hc]. apply Forall_forall. intros M' HM'.
  apply In_nth_error in HM' as [i Hi].
  assert (Hlt : (i < List.length tracking)%nat).
  { rewrite <- Hlen. apply nth_error_Some. congruence. }
  destruct (nth_error tracking i) as [M|] eqn:EM; [| apply nth_error_None in EM; lia].
  destruct (Hc i M EM) as (M'' & E'' & Hcor & Hsame).
  rewrite Hi in E''. injection E'' as <-.
  assert (HM : rigid M).
  { rewrite Forall_forall in Hr. apply Hr. eapply nth_error_In; eauto. }
  destruct (in_dec Nat.eq_dec i noised) as [Hin | Hnin].
  - eapply corrupted_from_rigid; eauto.
  - rewrite (Hsame Hnin). exact HM.
Qed.

(** C10.  In the contamination model of the notebook, every corrupted pose
    is the original pose right-multiplied by a rigid transformation built
    from Euler angles within +/-5 degrees and a translation within +/-5 mm
    per axis; exactly [counter] poses, all different, are corrupted and the
    others are left as they were.  Hence, when the tracked poses are rigid,
    every pose of the contaminated set is rigid again (orthonormal rotation
    block of determinant +1, last row [0 0 0 1]), and an orthonormality
    check accepts all of them. *)
Theorem contamination_keeps_poses_rigid
  (tracking_matrices : list Mat4) (counter : nat) (w : World) :
  Forall rigid tracking_matrices ->
  (counter <= List.length tracking_matrices)%nat ->
  exists noised copy w',
    contaminate tracking_matrices counter w = (inr copy, w') /\
    List.length noised = counter /\ NoDup noised /\
    contaminated_at noised tracking_matrices copy /\
    (forall T, noise_transform T -> rigid T) /\
    Forall rigid copy /\
    forallb orthonormality_check copy = true.
Proof.
  intros Hrigid Hle.
  destruct (contaminate_contaminated tracking_matrices counter w Hle)
    as (noised & copy & w' & Erun & Hlen & Hnd & Hc).
  pose proof (contaminated_at_rigid noised tracking_matrices copy Hrigid Hc) as Hr.
  exists noised, copy, w'.
  split; [exact Erun|]. split; [exact Hlen|]. split; [exact Hnd|].
  split; [exact Hc|]. split; [exact noise_transform_rigid|]. split; [exact Hr|].
  apply forallb_forall. intros M HM. apply orthonormality_check_iff.
  rewrite Forall_forall in Hr. apply (Hr M HM).
Qed.

(** With [counter = 0] (the first pass of the loop) nothing is sampled and
    nothing is drawn: both calibrations see the tracked matrices as they are. *)
Lemma contaminate_zero (tracking_matrices : list Mat4) (w : World) :
  exists g, contaminate tracking_matrices 0 w
            = (inr tracking_matrices, mkWorld g (np_random w)).
Proof.
  unfold contaminate.
  pose proof (sample_ok (seq 0 (List.length tracking_matrices)) 0%nat (py_random w)
                (seq_NoDup _ _) (Nat.le_0_l _)) as (l & El & Hlen & _).
  destruct l; [|discriminate].
  destruct (random_sample _ 0%nat (py_random w)) as [r g] eqn:Er. cbn [fst] in El. subst r.
  exists g. unfold bind, call_random_sample. rewrite Er. reflexivity.
Qed.

(** A rotation does not change lengths. *)
Lemma orthonormal_normsq (A : Mat3) (v : Vec3) :
  orthonormal A -> normsq (mvmul A v) = normsq v.
Proof. apply orthonormal_preserves_normsq. Qed.

(** The origin of a noised marker moves by at most [sqrt 75] mm (about 8.7). *)
Lemma corrupted_from_displacement (M M' : Mat4) :
  rigid M -> corrupted_from M M' ->
  normsq (vsub (trans_col M') (trans_col M)) <= 75.
Proof.
  intros (bM & cM & oM & _) (T & HT & ->).
  pose proof (noise_transform_rigid T HT) as (bT & cT & _).
  destruct HT as (a & b & c & t0 & t1 & t2 & _ & _ & _ & H0 & H1 & H2 & ET).
  rewrite (matmul4_rigid_blocks M T bM cM bT cT). cbn [trans_col].
  replace (vsub (vadd (mvmul (rot_block M) (trans_col T)) (trans_col M)) (trans_col M))
    with (mvmul (rot_block M) (trans_col T))
    by (destruct (mvmul (rot_block M) (trans_col T)), (trans_col M);
        cbv [vsub vadd vx vy vz]; f_equal; ring).
  rewrite (orthonormal_normsq _ _ oM), ET, rigid_ok. cbn [trans_col].
  unfold within, translation_offset_in_millimetres in *.
  cbv [normsq dot vx vy vz]. nra.
Qed.

(** *** The outer loop *)

Lemma for_each_experiment_step (tracking_matrices : list Mat4) (xs : list nat) :
  forall acc w curves w',
    for_each (experiment_step tracking_matrices) xs acc w = (inr curves, w') ->
    x_values curves = x_values acc ++ xs /\
    List.length (rms_error_ls curves) = (List.length (rms_error_ls acc) + List.length xs)%nat /\
    List.length (rms_error_RANSAC curves)
      = (List.length (rms_error_RANSAC acc) + List.length xs)%nat.
Proof.
  induction xs as [|x rest IH]; intros acc w curves w' H.
  - cbn in H. unfold ret in H. injection H as <- _. rewrite app_nil_r. cbn.
    split; [reflexivity | split; lia].
  - cbn [for_each] in H. unfold bind at 1 in H.
    destruct (experiment_step tracking_matrices acc x w) as [[e | acc1] w1] eqn:Estep;
      [discriminate|].
    apply IH in H. destruct H as (Hx & Hl & Hr).
    unfold experiment_step in Estep. unfold bind at 1 in Estep.
    destruct (contaminate tracking_matrices x w) as [[e | mc] wa]; [discriminate|].
    unfold bind at 1 in Estep.
    destruct (pivot_calibration mc wa) as [[e | r2] wb]; [discriminate|].
    unfold bind at 1 in Estep.
    destruct (pivot_calibration_with_ransac mc _ _ _ wb) as [[e | r3] wc]; [discriminate|].
    unfold ret in Estep. injection Estep as <- _.
    cbn [x_values rms_error_ls rms_error_RANSAC] in *.
    rewrite Hx, Hl, Hr, <- app_assoc, !length_app. cbn.
    split; [reflexivity | split; lia].
Qed.

(** When the cell runs to its end it has made ten passes, with 0, 10, ...,
    90 noised matrices: [range(0, 100, 10)] stops before 100. *)
Lemma experiment_schedule (tracking_matrices : list Mat4) (w w' : World)
  (curves : Curves) :
  experiment tracking_matrices w = (inr curves, w') ->
  x_values curves = [0; 10; 20; 30; 40; 50; 60; 70; 80; 90]%nat /\
  List.length (rms_error_ls curves) = 10%nat /\
  List.length (rms_error_RANSAC curves) = 10%nat.
Proof.
  intros H. apply for_each_experiment_step in H. exact H.
Qed.

(** A pass returns when it asks for no more matrices than there are and the
    calibration calls return. *)
Lemma experiment_step_returns (tracking_matrices : list Mat4) (acc : Curves)
  (counter : nat) (w : World) :
  (counter <= List.length tracking_matrices)%nat ->
  (forall ms w0, exists r w1, pivot_calibration ms w0 = (inr r, w1)) ->
  (forall ms w0, exists r w1,
      pivot_calibration_with_ransac ms number_iterations error_in_millimetres
        minimum_percentage w0 = (inr r, w1)) ->
  exists acc' w', experiment_step tracking_matrices acc counter w = (inr acc', w').
Proof.
  intros Hle Hls Hransac. unfold experiment_step.
  destruct (contaminate_contaminated tracking_matrices counter w Hle)
    as (noised & copy & wa & Erun & _).
  destruct (Hls copy wa) as (r2 & wb & E2).
  destruct (Hransac copy wb) as (r3 & wc & E3).
  unfold bind at 1. rewrite Erun. unfold bind at 1. rewrite E2.
  unfold bind at 1. rewrite E3. unfold ret. eauto.
Qed.


(** The cell has no handler: an exception of a pass ends the loop there,
    and the curves collected so far are not returned. *)
Lemma for_each_raises {A S : Type} (body : S -> A -> Cell S)
  (done : list A) (x : A) (rest : list A) :
  forall (s s1 : S) (w w1 w2 : World) (e : PyExc),
    for_each body done s w = (inr s1, w1) ->
    body s1 x w1 = (inl e, w2) ->
    for_each body (done ++ x :: rest) s w = (inl e, w2).
Proof.
  induction done as [|d done IH]; intros s s1 w w1 w2 e Hdone Hx.
  - cbn in Hdone. unfold ret in Hdone. injection Hdone as <- <-.
    cbn. unfold bind. rewrite Hx. reflexivity.
  - cbn [for_each app] in *. unfold bind at 1 in Hdone. unfold bind at 1.
    destruct (body s d w) as [[e0 | s0] w0]; [discriminate|].
    eapply IH; eauto.
Qed.


(** *** Noise acts in the marker's own frame *)

(** The noise multiplies on the right, so a noised pose sends a point of the
    marker where the tracked pose sends the point moved by the noise; as the
    tracked pose is rigid, the point lands as far from its true position as
    the noise moved it in marker coordinates. *)
Lemma noise_acts_in_marker_frame (M M' : Mat4) :
  rigid M -> corrupted_from M M' ->
  exists T, noise_transform T /\ M' = matmul4 M T /\
    forall p,
      matvec4 M' (point p) = matvec4 M (matvec4 T (point p)) /\
      normsq (vsub (xyz (matvec4 M' (point p))) (xyz (matvec4 M (point p))))
      = normsq (vsub (xyz (matvec4 T (point p))) p).
Proof.
  intros HM (T & HT & ->). exists T. split; [exact HT|]. split; [reflexivity|].
  intros p. pose proof (noise_transform_rigid T HT) as HTr.
  split; [apply matvec4_matmul4|].
  rewrite matvec4_matmul4, (matvec4_point T p HTr).
  rewrite (rigid_preserves_distance M _ p HM). reflexivity.
Qed.

(** *** What a pass does to the generators *)

Definition next_rand (g : NpRandom) : NpRandom := snd (np_rand g).

Lemma random_offset_state (offset : R) (w : World) :
  exists x, random_offset offset w
            = (inr x, mkWorld (py_random w) (next_rand (np_random w))).
Proof.
  unfold random_offset, bind, call_np_rand, ret, next_rand.
  destruct (np_rand (np_random w)) as [u g]. eexists. reflexivity.
Qed.

Lemma draw_random_transform_state (w : World) :
  exists T, draw_random_transform w
            = (inr T, mkWorld (py_random w) (Nat.iter 6 next_rand (np_random w))).
Proof.
  unfold draw_random_transform.
  destruct (random_offset_state rotation_offset_in_degrees w) as (a & E1).
  unfold bind at 1. rewrite E1.
  match goal with |- context [bind (random_offset ?o) _ ?w1] =>
    destruct (random_offset_state o w1) as (b & E2) end.
  unfold bind at 1. rewrite E2.
  match goal with |- context [bind (random_offset ?o) _ ?w1] =>
    destruct (random_offset_state o w1) as (c & E3) end.
  unfold bind at 1. rewrite E3.
  match goal with |- context [bind (random_offset ?o) _ ?w1] =>
    destruct (random_offset_state o w1) as (t0 & E4) end.
  unfold bind at 1. rewrite E4.
  match goal with |- context [bind (random_offset ?o) _ ?w1] =>
    destruct (random_offset_state o w1) as (t1 & E5) end.
  unfold bind at 1. rewrite E5.
  match goal with |- context [bind (random_offset ?o) _ ?w1] =>
    destruct (random_offset_state o w1) as (t2 & E6) end.
  unfold bind at 1. rewrite E6.
  eexists. reflexivity.
Qed.

Lemma add_noise_state (random_indices : list nat) :
  forall (matrices_copy copy : list Mat4) (w w' : World),
    add_noise random_indices matrices_copy w = (inr copy, w') ->
    w' = mkWorld (py_random w)
                 (Nat.iter (6 * List.length random_indices) next_rand (np_random w)).
Proof.
  induction random_indices as [|k rest IH]; intros mc copy w w' H.
  - cbn in H. unfold ret in H. injection H as _ <-. destruct w; reflexivity.
  - cbn [add_noise] in H. unfold bind at 1 in H.
    destruct (draw_random_transform_state w) as (T & ET). rewrite ET in H.
    destruct (nth_error mc k) as [Mk|]; [|discriminate].
    destruct (set_item mc k (matmul4 Mk T)) as [mc1|]; [|discriminate].
    apply IH in H. cbn [py_random np_random] in H. rewrite H.
    replace (6 * List.length (k :: rest))%nat with (6 * List.length rest + 6)%nat
      by (cbn [List.length]; lia).
    rewrite Nat.iter_add. reflexivity.
Qed.

(** A pass that noises [counter] matrices calls [random.sample] once and
    draws [6 * counter] numbers from NumPy's generator; it touches neither
    generator otherwise.  Which matrices are noised is decided by Python's
    generator, how they are noised by NumPy's. *)
Lemma contaminate_generators (tracking_matrices : list Mat4) (counter : nat)
  (w : World) :
  (counter <= List.length tracking_matrices)%nat ->
  exists noised copy,
    random_sample (seq 0 (List.length tracking_matrices)) counter (py_random w)
    = (Some noised, snd (random_sample (seq 0 (List.length tracking_matrices))
                           counter (py_random w))) /\
    contaminated_at noised tracking_matrices copy /\
    contaminate tracking_matrices counter w
    = (inr copy,
       mkWorld (snd (random_sample (seq 0 (List.length tracking_matrices))
                       counter (py_random w)))
               (Nat.iter (6 * counter) next_rand (np_random w))).
Proof.
  intros Hle. unfold contaminate.
  pose proof (sample_ok (seq 0 (List.length tracking_matrices)) counter (py_random w)
                (seq_NoDup _ _)) as Hs.
  rewrite length_seq in Hs. destruct (Hs Hle) as (l & El & Hlen & Hnd & Hincl).
  destruct (random_sample _ counter (py_random w)) as [r g] eqn:Er.
  cbn [fst snd] in *. subst r.
  destruct (add_noise_contaminated l tracking_matrices (mkWorld g (np_random w)) Hnd)
    as (copy & g' & Erun & Hc).
  { intros i Hi. apply Hincl in Hi. apply in_seq in Hi. lia. }
  exists l, copy. split; [reflexivity|]. split; [exact Hc|].
  pose proof (add_noise_state _ _ _ _ _ Erun) as Ew.
  cbn [py_random np_random] in Erun, Ew. injection Ew as Eg. rewrite Hlen in Eg.
  unfold bind, call_random_sample. rewrite Er, Erun, Eg. reflexivity.
Qed.

(** *** Too few matrices *)

(** [random.sample] raises [ValueError] when asked for more members than the
    population has. *)
Definition sample_shortage_contract : Prop :=
  forall population k g, (List.length population < k)%nat ->
    fst (random_sample population k g) = None.

Hypothesis shortage_ok : sample_shortage_contract.

Lemma contaminate_shortage (tracking_matrices : list Mat4) (counter : nat)
  (w : World) :
  (List.length tracking_matrices < counter)%nat ->
  exists w', contaminate tracking_matrices counter w = (inl ValueError, w').
Proof.
  intros Hlt. unfold contaminate, bind, call_random_sample.
  pose proof (shortage_ok (seq 0 (List.length tracking_matrices)) counter (py_random w)) as Hs.
  rewrite length_seq in Hs. specialize (Hs Hlt).
  destruct (random_sample _ counter (py_random w)) as [r g]. cbn [fst] in Hs. subst r.
  eexists. reflexivity.
Qed.

Lemma for_each_shortage (tracking_matrices : list Mat4) (xs : list nat) :
  (forall ms w0, exists r w1, pivot_calibration ms w0 = (inr r, w1)) ->
  (forall ms w0, exists r w1,
      pivot_calibration_with_ransac ms number_iterations error_in_millimetres
        minimum_percentage w0 = (inr r, w1)) ->
  Exists (fun counter => (List.length tracking_matrices < counter)%nat) xs ->
  forall acc w, exists w',
    for_each (experiment_step tracking_matrices) xs acc w = (inl ValueError, w').
Proof.
  intros Hls Hransac. induction xs as [|x rest IH]; intros Hex acc w.
  - inversion Hex.
  - cbn [for_each]. unfold bind at 1.
    destruct (le_lt_dec x (List.length tracking_matrices)) as [Hle | Hlt].
    + destruct (experiment_step_returns tracking_matrices acc x w Hle Hls Hransac)
        as (acc1 & w1 & E1).
      rewrite E1. apply IH. inversion Hex as [? ? Hx | ? ? Hrest]; subst; [lia | exact Hrest].
    + destruct (contaminate_shortage tracking_matrices x w Hlt) as (w1 & E1).
      unfold experiment_step. unfold bind at 1. rewrite E1. eexists. reflexivity.
Qed.


End Cell.

Arguments mkWorld {PyRandom NpRandom}.
Arguments py_random {PyRandom NpRandom}.
Arguments np_random {PyRandom NpRandom}.

(** *** Loading the tracking data

    The cell that reads the files: every file becomes an array, the arrays
    are concatenated, and the result is cut into 4 x 4 matrices. *)

(** A NumPy array: its shape and its values in row-major order. *)
Record NdArray : Type := mkNdArray { shape : list nat; data : list R }.

Definition size_of (dims : list nat) : nat := fold_right Nat.mul 1%nat dims.

Definition well_formed (a : NdArray) : Prop :=
  List.length (data a) = size_of (shape a).

(** [a.size]. *)
Definition size (a : NdArray) : nat := size_of (shape a).

(** The dimensions after the first; [None] for an array without dimensions. *)
Definition other_dims (a : NdArray) : option (list nat) :=
  match shape a with
  | [] => None
  | _ :: dims => Some dims
  end.

Definition first_dim (a : NdArray) : nat := hd 0%nat (shape a).

Definition same_dims (dims : list nat) (a : NdArray) : bool :=
  match other_dims a with
  | None => false
  | Some dims' => if list_eq_dec Nat.eq_dec dims' dims then true else false
  end.

(** [np.concatenate(arrays)], along the first axis.  It raises [ValueError]
    when there is no array, when an array has no dimension, and when the
    arrays differ in a dimension other than the first. *)
Definition concatenate (arrays : list NdArray) : PyExc + NdArray :=
  match arrays with
  | [] => inl ValueError
  | first :: rest =>
      match other_dims first with
      | None => inl ValueError
      | Some dims =>
          if forallb (same_dims dims) rest
          then inr (mkNdArray (fold_right Nat.add 0%nat (map first_dim arrays) :: dims)
                              (concat (map data arrays)))
          else inl ValueError
      end
  end.

(** [a.reshape(new_shape)]: the same values under a shape of the same size. *)
Definition reshape (a : NdArray) (new_shape : list nat) : PyExc + NdArray :=
  if Nat.eq_dec (size_of new_shape) (size a)
  then inr (mkNdArray new_shape (data a))
  else inl ValueError.

(** The cell, from [arrays] on.  [int(matrices.size/16)] is the quotient
    rounded down: dividing by 16 is exact in floating point. *)
Definition load_tracking_matrices (arrays : list NdArray) : PyExc + NdArray :=
  match concatenate arrays with
  | inl e => inl e
  | inr matrices =>
      let number_of_matrices := (size matrices / 16)%nat in
      reshape matrices [number_of_matrices; 4; 4]%nat
  end.

(** The sixteen values of a 4 x 4 matrix, row by row. *)
Definition entries (T : Mat4) : list R :=
  [ m00 (rot_block T); m01 (rot_block T); m02 (rot_block T); vx (trans_col T);
    m10 (rot_block T); m11 (rot_block T); m12 (rot_block T); vy (trans_col T);
    m20 (rot_block T); m21 (rot_block T); m22 (rot_block T); vz (trans_col T);
    vx (bottom_row T); vy (bottom_row T); vz (bottom_row T); corner T ].

Definition mat4_of_entries (e : list R) : Mat4 :=
  let at_ (r c : nat) := nth (4 * r + c) e 0 in
  mkMat4 (mkMat3 (at_ 0 0) (at_ 0 1) (at_ 0 2)
                 (at_ 1 0) (at_ 1 1) (at_ 1 2)
                 (at_ 2 0) (at_ 2 1) (at_ 2 2))%nat
         (mkVec3 (at_ 0 3) (at_ 1 3) (at_ 2 3))%nat
         (mkVec3 (at_ 3 0) (at_ 3 1) (at_ 3 2))%nat
         (at_ 3 3)%nat.

(** [t[i]] for an array of shape (n, 4, 4). *)
Definition matrix_at (t : NdArray) (i : nat) : Mat4 :=
  mat4_of_entries (firstn 16 (skipn (16 * i) (data t))).

(** The matrices of an array of shape (n, 4, 4), first axis first: what the
    experiment takes as [tracking_matrices]. *)
Definition matrices_of (t : NdArray) : list Mat4 :=
  map (matrix_at t) (seq 0 (first_dim t)).

Lemma entries_mat4_of_entries (e : list R) :
  List.length e = 16%nat -> entries (mat4_of_entries e) = e.
Proof.
  intros H.
  do 16 (destruct e as [|? e]; [discriminate|]).
  destruct e; [reflexivity | discriminate].
Qed.

Lemma mat4_of_entries_entries (T : Mat4) : mat4_of_entries (entries T) = T.
Proof. destruct T as [[] [] [] ?]. reflexivity. Qed.

Lemma chunks_concat (n : nat) :
  forall d : list R, List.length d = (16 * n)%nat ->
    concat (map (fun i => firstn 16 (skipn (16 * i) d)) (seq 0 n)) = d.
Proof.
  induction n as [|n IH]; intros d Hd.
  - destruct d; [reflexivity | discriminate].
  - rewrite <- cons_seq, <- seq_shift. cbn [map concat]. rewrite map_map.
    change (skipn (16 * 0) d) with d.
    rewrite (map_ext _ (fun i => firstn 16 (skipn (16 * i) (skipn 16 d)))).
    + rewrite IH by (rewrite length_skipn; lia). apply firstn_skipn.
    + intros i. rewrite skipn_skipn. do 2 f_equal. lia.
Qed.

Lemma chunk_length (d : list R) (n i : nat) :
  List.length d = (16 * n)%nat -> (i < n)%nat ->
  List.length (firstn 16 (skipn (16 * i) d)) = 16%nat.
Proof. intros Hd Hi. rewrite length_firstn, length_skipn. lia. Qed.

Lemma matrices_of_entries (t : NdArray) (n : nat) :
  shape t = [n; 4; 4]%nat -> well_formed t ->
  List.length (matrices_of t) = n /\
  concat (map entries (matrices_of t)) = data t.
Proof.
  intros Hs Hw. unfold well_formed in Hw. rewrite Hs in Hw. cbn [size_of fold_right] in Hw.
  assert (Hd : List.length (data t) = (16 * n)%nat) by lia.
  unfold matrices_of, first_dim. rewrite Hs. cbn [hd].
  split; [rewrite length_map, length_seq; reflexivity|].
  rewrite map_map.
  rewrite (map_ext_in _ (fun i => firstn 16 (skipn (16 * i) (data t)))).
  - apply chunks_concat. exact Hd.
  - intros i Hi. apply in_seq in Hi. unfold matrix_at.
    apply entries_mat4_of_entries. apply (chunk_length _ n); [exact Hd | lia].
Qed.

Lemma same_dims_length (dims : list nat) (a : NdArray) :
  well_formed a -> same_dims dims a = true ->
  List.length (data a) = (first_dim a * size_of dims)%nat.
Proof.
  unfold well_formed, same_dims, other_dims, first_dim. intros Hw Hs.
  destruct (shape a) as [|n dims']; [discriminate|].
  destruct (list_eq_dec Nat.eq_dec dims' dims) as [-> |]; [|discriminate].
  exact Hw.
Qed.

Lemma concat_data_length (dims : list nat) (arrays : list NdArray) :
  Forall well_formed arrays ->
  Forall (fun a => same_dims dims a = true) arrays ->
  List.length (concat (map data arrays))
  = (fold_right Nat.add 0%nat (map first_dim arrays) * size_of dims)%nat.
Proof.
  intros Hw Hall. induction Hall as [|a l Ha Hl IH]; [reflexivity|].
  inversion Hw as [|? ? Hwa Hwl]; subst.
  cbn [map concat fold_right]. rewrite length_app, (IH Hwl).
  rewrite (same_dims_length dims a Hwa Ha). lia.
Qed.

Lemma concatenate_well_formed (arrays : list NdArray) (matrices : NdArray) :
  Forall well_formed arrays -> concatenate arrays = inr matrices ->
  well_formed matrices /\ data matrices = concat (map data arrays).
Proof.
  intros Hw H. unfold concatenate in H.
  destruct arrays as [|first rest]; [discriminate|].
  destruct (other_dims first) as [dims|] eqn:Ed; [|discriminate].
  destruct (forallb (same_dims dims) rest) eqn:Ef; [|discriminate].
  injection H as <-. split; [|reflexivity].
  assert (Hall : Forall (fun a => same_dims dims a = true) (first :: rest)).
  { constructor.
    - unfold same_dims. rewrite Ed.
      destruct (list_eq_dec Nat.eq_dec dims dims); [reflexivity | congruence].
    - apply Forall_forall. rewrite forallb_forall in Ef. exact Ef. }
  unfold well_formed. cbn [shape data]. change (size_of (?n :: dims)) with (n * size_of dims)%nat.
  apply (concat_data_length dims (first :: rest)); assumption.
Qed.

(** The load cell.  Without files it ends with the [ValueError] of
    [np.concatenate].  Otherwise it succeeds exactly when the number of
    values read is a multiple of 16 (else [reshape] raises [ValueError]); the
    result then has shape (size / 16, 4, 4) and holds that many matrices,
    whose entries, read in order, are the values of the files in order:
    nothing is dropped, padded or reordered. *)
Lemma load_tracking_matrices_cases (arrays : list NdArray) :
  Forall well_formed arrays ->
  (arrays = [] -> load_tracking_matrices arrays = inl ValueError) /\
  forall matrices, concatenate arrays = inr matrices ->
    size matrices = List.length (concat (map data arrays)) /\
    ((size matrices mod 16 <> 0)%nat ->
       load_tracking_matrices arrays = inl ValueError) /\
    ((size matrices mod 16 = 0)%nat ->
       exists tracking_matrices,
         load_tracking_matrices arrays = inr tracking_matrices /\
         shape tracking_matrices = [size matrices / 16; 4; 4]%nat /\
         List.length (matrices_of tracking_matrices) = (size matrices / 16)%nat /\
         concat (map entries (matrices_of tracking_matrices))
         = concat (map data arrays)).
Proof.
  intros Hw. split; [intros ->; reflexivity|].
  intros matrices Hc.
  destruct (concatenate_well_formed arrays matrices Hw Hc) as [Hwm Hdata].
  split; [unfold size; rewrite <- Hwm, Hdata; reflexivity|].
  unfold load_tracking_matrices. rewrite Hc. unfold reshape.
  cbn [size_of fold_right].
  pose proof (Nat.div_mod_eq (size matrices) 16) as Hdm.
  split; intros Hmod.
  - destruct (Nat.eq_dec _ _) as [E | NE]; [lia | reflexivity].
  - destruct (Nat.eq_dec _ _) as [E | NE]; [|lia].
    eexists. split; [reflexivity|]. split; [reflexivity|].
    rewrite <- Hdata.
    apply (matrices_of_entries (mkNdArray [size matrices / 16; 4; 4]%nat (data matrices)));
      [reflexivity|].
    unfold well_formed. cbn [shape data size_of fold_right]. rewrite Hwm. fold (size matrices). lia.
Qed.

(** *** A concrete run

    Stand-ins for the libraries that meet the contracts above: a sampler that
    takes the first [k] members, a generator stuck at 3/4 (so every angle is
    2.5 degrees and every translation 2.5 mm), and the textbook Euler and
    homogeneous-matrix constructions. *)

Definition first_k_sample (population : list nat) (k : nat) (g : unit)
  : option (list nat) * unit := (Some (firstn k population), g).

Definition stuck_rand (g : unit) : R * unit := (3 / 4, g).

Definition euler_helper (a b c : R) (sequence : string) (is_in_radians : bool)
  : Mat3 := euler_zyx_degrees a b c.

Lemma first_k_sample_contract : sample_contract unit first_k_sample.
Proof.
  intros population k g Hnd Hle. exists (firstn k population).
  split; [reflexivity|]. split; [apply firstn_length_le; exact Hle|].
  split.
  - rewrite <- (firstn_skipn k population) in Hnd. eapply NoDup_app_remove_r; eauto.
  - intros x Hx. rewrite <- (firstn_skipn k population). apply in_or_app. left; exact Hx.
Qed.

Lemma stuck_rand_contract : rand_contract unit stuck_rand.
Proof. intros g. cbn. lra. Qed.

Lemma euler_helper_contract : euler_contract euler_helper.
Proof. intros a b c. apply is_rotation_euler. Qed.

Lemma homogeneous_contract : rigid_contract homogeneous.
Proof. intros rot_m trans_v. reflexivity. Qed.

Lemma contamination_keeps_poses_rigid_witness :
  Forall rigid [identity4; identity4] /\
  exists noised copy w',
    contaminate unit unit first_k_sample stuck_rand euler_helper homogeneous
      [identity4; identity4] 1 (mkWorld tt tt) = (inr copy, w') /\
    List.length noised = 1%nat /\ NoDup noised /\
    contaminated_at euler_helper homogeneous noised [identity4; identity4] copy /\
    (forall T, noise_transform euler_helper homogeneous T -> rigid T) /\
    Forall rigid copy /\
    forallb orthonormality_check copy = true.
Proof.
  assert (H : Forall rigid [identity4; identity4])
    by (repeat constructor; apply rigid_identity4).
  split; [exact H|].
  apply (contamination_keeps_poses_rigid unit unit first_k_sample stuck_rand
           euler_helper homogeneous stuck_rand_contract first_k_sample_contract
           euler_helper_contract homogeneous_contract
           [identity4; identity4] 1 (mkWorld tt tt) H).
  cbn. lia.
Defined.

(** Calibration stand-ins: one that always returns, one that always raises. *)
Definition returning_calibration (ms : list Mat4) : Cell unit unit (Vec3 * Vec3 * R) :=
  fun w => (inr (vzero, vzero, 0), w).

Definition returning_ransac (ms : list Mat4) (k : nat) (e f : R)
  : Cell unit unit (Vec3 * Vec3 * R) :=
  fun w => (inr (vzero, vzero, 0), w).

Definition raising_ransac (ms : list Mat4) (k : nat) (e f : R)
  : Cell unit unit (Vec3 * Vec3 * R) :=
  fun w => (inl ValueError, w).


Lemma corrupted_from_displacement_witness :
  let T := homogeneous (euler_helper 1 2 3 "zyx" false) (mkVec3 1 (-2) 4) in
  rigid identity4 /\
  corrupted_from euler_helper homogeneous identity4 (matmul4 identity4 T) /\
  normsq (vsub (trans_col (matmul4 identity4 T)) (trans_col identity4)) <= 75.
Proof.
  intros T.
  assert (Hc : corrupted_from euler_helper homogeneous identity4 (matmul4 identity4 T)).
  { exists T. split; [|reflexivity].
    exists 1, 2, 3, 1, (-2), 4.
    unfold within, rotation_offset_in_degrees, translation_offset_in_millimetres.
    repeat split; try lra. }
  split; [exact rigid_identity4|]. split; [exact Hc|].
  apply (corrupted_from_displacement euler_helper homogeneous
           euler_helper_contract homogeneous_contract identity4 _ rigid_identity4 Hc).
Defined.


(** A sampler that refuses to take more than there is, and a generator that
    counts its draws. *)
Definition checked_sample (population : list nat) (k : nat) (g : unit)
  : option (list nat) * unit :=
  if (k <=? List.length population)%nat then (Some (firstn k population), g)
  else (None, g).

Definition counting_rand (g : nat) : R * nat := (3 / 4, S g).

Lemma checked_sample_contract : sample_contract unit checked_sample.
Proof.
  intros population k g Hnd Hle. unfold checked_sample.
  apply Nat.leb_le in Hle as Hb. rewrite Hb.
  exact (first_k_sample_contract population k g Hnd Hle).
Qed.

Lemma checked_sample_shortage : sample_shortage_contract unit checked_sample.
Proof.
  intros population k g Hlt. unfold checked_sample.
  destruct (Nat.leb_spec k (List.length population)); [lia | reflexivity].
Qed.

Lemma counting_rand_contract : rand_contract nat counting_rand.
Proof. intros g. cbn. lra. Qed.

Lemma noise_acts_in_marker_frame_witness :
  let N := homogeneous (euler_helper 1 2 3 "zyx" false) (mkVec3 1 (-2) 4) in
  rigid identity4 /\
  corrupted_from euler_helper homogeneous identity4 (matmul4 identity4 N) /\
  exists T, noise_transform euler_helper homogeneous T /\
    matmul4 identity4 N = matmul4 identity4 T /\
    forall p,
      matvec4 (matmul4 identity4 N) (point p)
      = matvec4 identity4 (matvec4 T (point p)) /\
      normsq (vsub (xyz (matvec4 (matmul4 identity4 N) (point p)))
                   (xyz (matvec4 identity4 (point p))))
      = normsq (vsub (xyz (matvec4 T (point p))) p).
Proof.
  intros N.
  assert (Hc : corrupted_from euler_helper homogeneous identity4 (matmul4 identity4 N)).
  { exists N. split; [|reflexivity].
    exists 1, 2, 3, 1, (-2), 4.
    unfold within, rotation_offset_in_degrees, translation_offset_in_millimetres.
    repeat split; try lra. }
  split; [exact rigid_identity4|]. split; [exact Hc|].
  apply (noise_acts_in_marker_frame euler_helper homogeneous
           euler_helper_contract homogeneous_contract identity4 _ rigid_identity4 Hc).
Defined.

Lemma contaminate_generators_witness :
  (2 <= List.length [identity4; identity4; identity4])%nat /\
  exists noised copy,
    checked_sample (seq 0 3) 2 tt = (Some noised, snd (checked_sample (seq 0 3) 2 tt)) /\
    contaminated_at euler_helper homogeneous noised [identity4; identity4; identity4] copy /\
    contaminate unit nat checked_sample counting_rand euler_helper homogeneous
      [identity4; identity4; identity4] 2 (mkWorld tt 0%nat)
    = (inr copy,
       mkWorld (snd (checked_sample (seq 0 3) 2 tt))
               (Nat.iter (6 * 2) (next_rand nat counting_rand) 0%nat)).
Proof.
  assert (H : (2 <= List.length [identity4; identity4; identity4])%nat) by (cbn; lia).
  split; [exact H|].
  exact (contaminate_generators unit nat checked_sample counting_rand euler_helper
           homogeneous counting_rand_contract checked_sample_contract
           [identity4; identity4; identity4] 2 (mkWorld tt 0%nat) H).
Defined.


Lemma load_tracking_matrices_cases_witness :
  let arrays := [mkNdArray [4; 4]%nat (entries identity4);
                 mkNdArray [8; 4]%nat (entries identity4 ++ entries identity4)] in
  Forall well_formed arrays /\
  (arrays = [] -> load_tracking_matrices arrays = inl ValueError) /\
  forall matrices, concatenate arrays = inr matrices ->
    size matrices = List.length (concat (map data arrays)) /\
    ((size matrices mod 16 <> 0)%nat ->
       load_tracking_matrices arrays = inl ValueError) /\
    ((size matrices mod 16 = 0)%nat ->
       exists tracking_matrices,
         load_tracking_matrices arrays = inr tracking_matrices /\
         shape tracking_matrices = [size matrices / 16; 4; 4]%nat /\
         List.length (matrices_of tracking_matrices) = (size matrices / 16)%nat /\
         concat (map entries (matrices_of tracking_matrices))
         = concat (map data arrays)).
Proof.
  intros arrays.
  assert (H : Forall well_formed arrays) by (repeat constructor).
  split; [exact H|].
  exact (load_tracking_matrices_cases arrays H).
Defined.

End Notebook.

(* ====================================================================== *)
(** ** The pivot solver of the specification (Algebraic One Step)

    Nothing in this module comes from code: the notebooks call
    [sksurgerycalibration.algorithms.pivot.pivot_calibration] and hold no
    solver of their own.  The definitions follow section 4.1 of the
    specification. *)
(* ====================================================================== *)

Module PivotCore.
Import Geometry.

Inductive Error : Type :=
| InsufficientDataError
| DegenerateGeometryError
| ConsensusNotReachedError
| InvalidPoseError.

Definition Result (A : Type) : Type := (Error + A)%type.

(** One sampled tool pose: the 4x4 transform from the tool's marker frame
    to the tracker frame. *)
Definition RigidPose : Type := Mat4.

Definition PoseSet : Type := list RigidPose.

Record PivotSolution : Type := mkPivotSolution {
  offset : Vec3;
  pivot : Vec3;
  residual : R }.

(** *** The stacked linear system [A x = b] *)

(** Modelled from the spec: the stacked system of section 4.1, which no
    source file builds.  The three rows a pose contributes to [A] are the
    block [R_i] next to [-I_3]. *)
Definition pose_rows (P : RigidPose) : list (list R) :=
  let Ri := rot_block P in
  [ [m00 Ri; m01 Ri; m02 Ri; -1; 0; 0];
    [m10 Ri; m11 Ri; m12 Ri; 0; -1; 0];
    [m20 Ri; m21 Ri; m22 Ri; 0; 0; -1] ].

(** Modelled from the spec: the three entries a pose contributes to [b],
    [-t_i]. *)
Definition pose_rhs (P : RigidPose) : list R :=
  let ti := trans_col P in [- vx ti; - vy ti; - vz ti].

Definition stack_A (poses : PoseSet) : list (list R) := flat_map pose_rows poses.

Definition stack_b (poses : PoseSet) : list R := flat_map pose_rhs poses.

(** The unknown [x = [offset; p]]. *)
Definition unknowns (o p : Vec3) : list R := [vx o; vy o; vz o; vx p; vy p; vz p].

Definition sum_list (l : list R) : R := fold_right Rplus 0 l.

Definition dotl (a b : list R) : R :=
  sum_list (map (fun ab => fst ab * snd ab) (combine a b)).

Definition mat_vec (A : list (list R)) (x : list R) : list R :=
  map (fun row => dotl row x) A.

(** [A x - b]. *)
Definition residual_vec (A : list (list R)) (x b : list R) : list R :=
  map (fun ab => fst ab - snd ab) (combine (mat_vec A x) b).

Definition sum_squares (l : list R) : R := sum_list (map (fun r => r * r) l).

(** The least-squares cost [|A x - b|^2] of the stacked system. *)
Definition lsq_cost (poses : PoseSet) (x : list R) : R :=
  sum_squares (residual_vec (stack_A poses) x (stack_b poses)).

(** [A] has full column rank: only the zero vector is sent to zero. *)
Definition full_column_rank (poses : PoseSet) : Prop :=
  forall x, List.length x = 6%nat ->
    Forall (fun r => r = 0) (mat_vec (stack_A poses) x) -> Forall (fun r => r = 0) x.

(** *** Solving the normal equations

    [A^T A] has the blocks [S = sum R_i^T R_i], [-M^T], [-M] and [N I] with
    [M = sum R_i]; [A^T b] is [(-u, T)] with [u = sum R_i^T t_i] and
    [T = sum t_i]. *)

Definition sum_RtR (poses : PoseSet) : Mat3 :=
  msum (map (fun P => mmul (mtranspose (rot_block P)) (rot_block P)) poses).

Definition sum_R (poses : PoseSet) : Mat3 := msum (map rot_block poses).

Definition sum_Rt_t (poses : PoseSet) : Vec3 :=
  vsum (map (fun P => mvmul (mtranspose (rot_block P)) (trans_col P)) poses).

Definition sum_t (poses : PoseSet) : Vec3 := vsum (map trans_col poses).

(** Eliminating the pivot [p = (M o + T) / N] leaves the 3x3 system
    [(N S - M^T M) o = M^T T - N u] for the offset. *)
Definition reduced_matrix (poses : PoseSet) : Mat3 :=
  msub (mscale (INR (List.length poses)) (sum_RtR poses))
       (mmul (mtranspose (sum_R poses)) (sum_R poses)).

Definition reduced_rhs (poses : PoseSet) : Vec3 :=
  vsub (mvmul (mtranspose (sum_R poses)) (sum_t poses))
       (vscale (INR (List.length poses)) (sum_Rt_t poses)).

(** Cramer's rule for a 3x3 system. *)
Definition solve3 (K : Mat3) (rhs : Vec3) : Vec3 :=
  vscale (/ det3 K) (mvmul (adj3 K) rhs).

(** Modelled from the spec: the least-squares solve of the stacked system
    ("Solve via least squares (e.g. singular-value decomposition or normal
    equations via pseudo-inverse)") is not among the sources; the notebook
    calls a library for it.  It is modelled by the normal equations, solved
    in closed form: [None] when they are singular, i.e. when the system is
    rank-deficient. *)
Definition least_squares (poses : PoseSet) : option (Vec3 * Vec3) :=
  let K := reduced_matrix poses in
  if Req_dec_T (det3 K) 0 then None
  else
    let o := solve3 K (reduced_rhs poses) in
    let p := vscale (/ INR (List.length poses))
                    (vadd (mvmul (sum_R poses) o) (sum_t poses)) in
    Some (o, p).

(** *** The residual *)

(** Where pose [P] puts the pivot for the offset [o]: [R_i o + t_i]. *)
Definition predict (P : RigidPose) (o : Vec3) : Vec3 :=
  vadd (mvmul (rot_block P) o) (trans_col P).

Definition centroid (pts : list Vec3) : Vec3 :=
  vscale (/ INR (List.length pts)) (vsum pts).

(** Root mean square of a list of numbers. *)
Definition rms (xs : list R) : R :=
  sqrt (sum_squares xs / INR (List.length xs)).

(** Modelled from the spec: the residual of section 4.1, which no source
    file computes: the RMS, over the poses, of the distance between the
    predicted pivot position and the centroid of all predictions. *)
Definition rms_about_centroid (poses : PoseSet) (o : Vec3) : R :=
  let predictions := map (fun P => predict P o) poses in
  rms (map (fun q => dist q (centroid predictions)) predictions).

(** *** The solver *)

Definition min_poses : nat := 4.

(** Modelled from the spec: [solve_pivot(poses) -> PivotSolution | Error]
    is described by the specification (section 4.1) and has no
    implementation among the sources: the notebook calls
    [sksurgerycalibration]'s [pivot_calibration] instead.  It fails fast
    with [InsufficientDataError] when there are fewer than four poses or
    the system is rank-deficient, and otherwise returns the least-squares
    offset and pivot with the RMS residual about the centroid. *)
Definition solve_pivot (poses : PoseSet) : Result PivotSolution :=
  if (List.length poses <? min_poses)%nat then inl InsufficientDataError
  else
    match least_squares poses with
    | None => inl InsufficientDataError
    | Some (o, p) => inr (mkPivotSolution o p (rms_about_centroid poses o))
    end.

(** *** Vector form of the system *)

(** The residual of one pose: [R_i o - p + t_i]. *)
Definition pose_residual (o p : Vec3) (P : RigidPose) : Vec3 :=
  vadd (vsub (mvmul (rot_block P) o) p) (trans_col P).

(** Its homogeneous part: [R_i o - p]. *)
Definition pose_hom (o p : Vec3) (P : RigidPose) : Vec3 :=
  vsub (mvmul (rot_block P) o) p.

Definition cross (a b : Vec3) : Vec3 :=
  mkVec3 (vy a * vz b - vz a * vy b)
         (vz a * vx b - vx a * vz b)
         (vx a * vy b - vy a * vx b).

(** *** Shape of the stacked system *)

Lemma stack_A_length (poses : PoseSet) :
  List.length (stack_A poses) = (3 * List.length poses)%nat.
Proof.
  unfold stack_A. induction poses as [|P rest IH]; [reflexivity|].
  cbn [flat_map pose_rows app List.length]. rewrite IH. lia.
Qed.

Lemma stack_b_length (poses : PoseSet) :
  List.length (stack_b poses) = (3 * List.length poses)%nat.
Proof.
  unfold stack_b. induction poses as [|P rest IH]; [reflexivity|].
  cbn [flat_map pose_rhs app List.length]. rewrite IH. lia.
Qed.

Lemma stack_A_width (poses : PoseSet) :
  Forall (fun row => List.length row = 6%nat) (stack_A poses).
Proof. induction poses as [|P rest IH]; cbn; repeat constructor; exact IH. Qed.

(** Pose number [i] fills rows [3i], [3i+1], [3i+2]. *)
Lemma stack_block (poses : PoseSet) :
  forall i P, nth_error poses i = Some P ->
    firstn 3 (skipn (3 * i) (stack_A poses)) = pose_rows P /\
    firstn 3 (skipn (3 * i) (stack_b poses)) = pose_rhs P.
Proof.
  induction poses as [|Q rest IH]; intros [|i] P H; cbn in H; try discriminate.
  - injection H as ->. split; reflexivity.
  - replace (3 * S i)%nat with (S (S (S (3 * i)))) by lia.
    apply (IH i P H).
Qed.

Lemma length6_unknowns (x : list R) :
  List.length x = 6%nat -> exists o p, x = unknowns o p.
Proof.
  destruct x as [|a [|b [|c [|d [|e [|f [|g x]]]]]]]; cbn; intros H; try discriminate.
  exists (mkVec3 a b c), (mkVec3 d e f). reflexivity.
Qed.

(** *** The cost, pose by pose *)

Definition cost_vec (poses : PoseSet) (o p : Vec3) : R :=
  sum_list (map (fun P => normsq (pose_residual o p P)) poses).

Lemma lsq_cost_unknowns (poses : PoseSet) (o p : Vec3) :
  lsq_cost poses (unknowns o p) = cost_vec poses o p.
Proof.
  unfold lsq_cost, cost_vec, sum_squares, residual_vec, mat_vec, stack_A, stack_b.
  induction poses as [|P rest IH]; [reflexivity|].
  cbn [flat_map pose_rows pose_rhs app map combine fold_right sum_list fst snd].
  unfold sum_list in IH. rewrite IH.
  destruct P as [Ri ti bi ci], Ri, ti, o, p.
  cbv [dotl unknowns combine map sum_list fold_right fst snd pose_residual normsq dot
       vadd vsub mvmul rot_block trans_col vx vy vz
       m00 m01 m02 m10 m11 m12 m20 m21 m22].
  ring.
Qed.

Lemma sum_list_nonneg (l : list R) : Forall (fun r => 0 <= r) l -> 0 <= sum_list l.
Proof. unfold sum_list. induction 1; cbn; lra. Qed.

Lemma sum_list_zero (l : list R) :
  Forall (fun r => 0 <= r) l -> sum_list l = 0 -> Forall (fun r => r = 0) l.
Proof.
  induction 1 as [|x l Hx Hl IH]; cbn; intros H; constructor.
  - pose proof (sum_list_nonneg l Hl). unfold sum_list in *. lra.
  - apply IH. pose proof (sum_list_nonneg l Hl). unfold sum_list in *. lra.
Qed.

(** *** Cramer's rule *)

Lemma solve3_correct (K : Mat3) (rhs : Vec3) :
  det3 K <> 0 -> mvmul K (solve3 K rhs) = rhs.
Proof.
  destruct K, rhs.
  cbv [solve3 det3 adj3 mvmul vscale vx vy vz m00 m01 m02 m10 m11 m12 m20 m21 m22].
  intros H. f_equal; field; exact H.
Qed.

Lemma solve3_unique (K : Mat3) (rhs v : Vec3) :
  det3 K <> 0 -> mvmul K v = rhs -> v = solve3 K rhs.
Proof.
  intros H <-. destruct K, v.
  cbv [solve3 det3 adj3 mvmul vscale vx vy vz m00 m01 m02 m10 m11 m12 m20 m21 m22] in *.
  f_equal; field; exact H.
Qed.

(** *** Sums over the poses are linear in the unknowns *)

Lemma sum_residuals (poses : PoseSet) (o p : Vec3) :
  vsum (map (pose_residual o p) poses)
  = vadd (vsub (mvmul (sum_R poses) o) (vscale (INR (List.length poses)) p))
         (sum_t poses).
Proof.
  unfold sum_R, sum_t.
  induction poses as [|P rest IH].
  - cbn. destruct o, p. cbv [vadd vsub vscale mvmul mzero vzero vx vy vz
      m00 m01 m02 m10 m11 m12 m20 m21 m22]. f_equal; ring.
  - cbn [map vsum msum fold_right List.length]. unfold vsum in IH. rewrite IH.
    rewrite S_INR. unfold msum, vsum.
    generalize (fold_right madd mzero (map rot_block rest)) as M.
    generalize (fold_right vadd vzero (map trans_col rest)) as T.
    generalize (INR (List.length rest)) as n.
    intros n T M. destruct P as [Ri ti bi ci]. unfold pose_residual. cbn [rot_block trans_col].
    destruct Ri, ti, M, T, o, p.
    cbv [vadd vsub vscale mvmul madd vx vy vz m00 m01 m02 m10 m11 m12 m20 m21 m22].
    f_equal; ring.
Qed.

Lemma sum_Rt_residuals (poses : PoseSet) (o p : Vec3) :
  vsum (map (fun P => mvmul (mtranspose (rot_block P)) (pose_residual o p P)) poses)
  = vadd (vsub (mvmul (sum_RtR poses) o) (mvmul (mtranspose (sum_R poses)) p))
         (sum_Rt_t poses).
Proof.
  unfold sum_RtR, sum_R, sum_Rt_t.
  induction poses as [|P rest IH].
  - cbn. destruct o, p. cbv [vadd vsub mvmul mtranspose mzero vzero vx vy vz
      m00 m01 m02 m10 m11 m12 m20 m21 m22]. f_equal; ring.
  - cbn [map vsum msum fold_right]. unfold vsum in IH. rewrite IH.
    unfold msum, vsum.
    generalize (fold_right madd mzero
                  (map (fun P0 => mmul (mtranspose (rot_block P0)) (rot_block P0)) rest)) as S.
    generalize (fold_right madd mzero (map rot_block rest)) as M.
    generalize (fold_right vadd vzero
                  (map (fun P0 => mvmul (mtranspose (rot_block P0)) (trans_col P0)) rest)) as u.
    intros u M S. destruct P as [Ri ti bi ci]. unfold pose_residual. cbn [rot_block trans_col].
    destruct Ri, ti, M, S, u, o, p.
    cbv [vadd vsub mvmul madd mmul mtranspose vx vy vz
         m00 m01 m02 m10 m11 m12 m20 m21 m22].
    f_equal; ring.
Qed.

(** *** The computed solution satisfies the normal equations *)

Lemma reduced_matrix_nil : det3 (reduced_matrix []) = 0.
Proof.
  cbv [reduced_matrix sum_RtR sum_R msum map fold_right List.length INR
       msub mscale mmul mtranspose mzero det3
       m00 m01 m02 m10 m11 m12 m20 m21 m22]. ring.
Qed.

Lemma INR_length_nonzero {A : Type} (l : list A) : l <> [] -> INR (List.length l) <> 0.
Proof.
  destruct l as [|a l]; [congruence|]. intros _. cbn [List.length].
  rewrite S_INR. pose proof (pos_INR (List.length l)). lra.
Qed.

Ltac scalar_from_hyp HN :=
  match goal with
  | H : ?A = ?B |- ?L = 0 =>
      replace L with (A - B) by (field; exact HN); rewrite H; ring
  end.

Lemma least_squares_normal_equations (poses : PoseSet) (o p : Vec3) :
  least_squares poses = Some (o, p) ->
  vsum (map (pose_residual o p) poses) = vzero /\
  vsum (map (fun P => mvmul (mtranspose (rot_block P)) (pose_residual o p P)) poses)
  = vzero.
Proof.
  unfold least_squares. destruct (Req_dec_T _ _) as [Hz | Hdet]; [discriminate|].
  intros H. injection H as Ho Hp.
  assert (HN : INR (List.length poses) <> 0).
  { apply INR_length_nonzero. intros ->. apply Hdet, reduced_matrix_nil. }
  pose proof (solve3_correct _ (reduced_rhs poses) Hdet) as HK.
  rewrite Ho in HK, Hp. clear Ho Hdet.
  rewrite sum_residuals, sum_Rt_residuals. subst p.
  unfold reduced_matrix, reduced_rhs in HK.
  revert HK HN.
  generalize (sum_RtR poses) as S, (sum_R poses) as M, (sum_t poses) as T,
             (sum_Rt_t poses) as u, (INR (List.length poses)) as n.
  intros S M T u n HK HN. destruct S, M, T, u, o.
  cbv [vadd vsub vscale mvmul msub mscale mmul mtranspose vzero vx vy vz
       m00 m01 m02 m10 m11 m12 m20 m21 m22] in *.
  injection HK as H1 H2 H3.
  split; f_equal; try (field; exact HN).
  - apply (Rmult_eq_reg_l n); [|exact HN]. rewrite Rmult_0_r.
    clear H2 H3. scalar_from_hyp HN.
  - apply (Rmult_eq_reg_l n); [|exact HN]. rewrite Rmult_0_r.
    clear H1 H3. scalar_from_hyp HN.
  - apply (Rmult_eq_reg_l n); [|exact HN]. rewrite Rmult_0_r.
    clear H1 H2. scalar_from_hyp HN.
Qed.

(** *** Completing the square *)

Lemma cost_vec_expand (poses : PoseSet) (o p o' p' : Vec3) :
  cost_vec poses o' p'
  = cost_vec poses o p
    + sum_list (map (fun P => normsq (pose_hom (vsub o' o) (vsub p' p) P)) poses)
    + 2 * (dot (vsub o' o)
               (vsum (map (fun P => mvmul (mtranspose (rot_block P))
                                          (pose_residual o p P)) poses))
           - dot (vsub p' p) (vsum (map (pose_residual o p) poses))).
Proof.
  unfold cost_vec, sum_list, vsum.
  induction poses as [|P rest IH].
  - cbn. destruct o, p, o', p'. cbv [dot vsub vzero vx vy vz]. ring.
  - cbn [map fold_right]. rewrite IH.
    generalize (fold_right Rplus 0 (map (fun P0 => normsq (pose_residual o p P0)) rest)) as c.
    generalize (fold_right Rplus 0
                  (map (fun P0 => normsq (pose_hom (vsub o' o) (vsub p' p) P0)) rest)) as h.
    generalize (fold_right vadd vzero
                  (map (fun P0 => mvmul (mtranspose (rot_block P0))
                                        (pose_residual o p P0)) rest)) as g1.
    generalize (fold_right vadd vzero (map (pose_residual o p) rest)) as g2.
    intros g2 g1 h c. destruct P as [Ri ti bi ci]. unfold pose_residual, pose_hom.
    cbn [rot_block trans_col]. destruct Ri, ti, g1, g2, o, p, o', p'.
    cbv [normsq dot vadd vsub mvmul mtranspose vx vy vz
         m00 m01 m02 m10 m11 m12 m20 m21 m22].
    ring.
Qed.

Lemma sum_normsq_nonneg {A : Type} (f : A -> Vec3) (l : list A) :
  0 <= sum_list (map (fun a => normsq (f a)) l).
Proof.
  apply sum_list_nonneg, Forall_forall. intros r Hr.
  apply in_map_iff in Hr as (a & <- & _). apply normsq_nonneg.
Qed.

Lemma dot_vzero_r (a : Vec3) : dot a vzero = 0.
Proof. destruct a; cbv [dot vzero vx vy vz]; ring. Qed.

(** The computed offset and pivot minimise the cost. *)
Lemma least_squares_optimal (poses : PoseSet) (o p : Vec3) :
  least_squares poses = Some (o, p) ->
  forall o' p', cost_vec poses o p <= cost_vec poses o' p'.
Proof.
  intros H o' p'. destruct (least_squares_normal_equations poses o p H) as [G2 G1].
  rewrite (cost_vec_expand poses o p o' p'), G1, G2, !dot_vzero_r.
  pose proof (sum_normsq_nonneg (pose_hom (vsub o' o) (vsub p' p)) poses). lra.
Qed.

(** *** Rank deficiency is what makes the normal equations singular *)

Lemma mat_vec_unknowns (poses : PoseSet) (o p : Vec3) :
  mat_vec (stack_A poses) (unknowns o p)
  = flat_map (fun P => let h := pose_hom o p P in [vx h; vy h; vz h]) poses.
Proof.
  unfold mat_vec, stack_A.
  induction poses as [|P rest IH]; [reflexivity|].
  cbn [flat_map pose_rows app map]. rewrite IH.
  destruct P as [Ri ti bi ci], Ri, o, p.
  cbv [dotl unknowns combine map sum_list fold_right fst snd pose_hom
       vsub mvmul rot_block vx vy vz m00 m01 m02 m10 m11 m12 m20 m21 m22 app].
  f_equal; [ring|]. f_equal; [ring|]. f_equal; ring.
Qed.

Lemma sum_hom_sq (poses : PoseSet) (o p : Vec3) :
  sum_list (map (fun P => normsq (pose_hom o p P)) poses)
  = dot o (vsub (mvmul (sum_RtR poses) o) (mvmul (mtranspose (sum_R poses)) p))
    - dot p (vsub (mvmul (sum_R poses) o) (vscale (INR (List.length poses)) p)).
Proof.
  unfold sum_RtR, sum_R, sum_list, msum.
  induction poses as [|P rest IH].
  - cbn. destruct o, p. cbv [dot vsub vscale mvmul mtranspose mzero vx vy vz
      m00 m01 m02 m10 m11 m12 m20 m21 m22]. ring.
  - cbn [map fold_right List.length]. rewrite IH, S_INR.
    generalize (fold_right madd mzero
                  (map (fun P0 => mmul (mtranspose (rot_block P0)) (rot_block P0)) rest)) as S.
    generalize (fold_right madd mzero (map rot_block rest)) as M.
    generalize (INR (List.length rest)) as n.
    intros n M S. destruct P as [Ri ti bi ci]. unfold pose_hom. cbn [rot_block].
    destruct Ri, M, S, o, p.
    cbv [normsq dot vsub vscale mvmul madd mmul mtranspose vx vy vz
         m00 m01 m02 m10 m11 m12 m20 m21 m22].
    ring.
Qed.

(** A singular 3x3 matrix sends some non-zero vector to zero. *)
Lemma perpendicular_exists (r : Vec3) :
  r <> vzero ->
  exists v, v <> vzero /\ dot r v = 0 /\
            forall s, cross s r = vzero -> dot s v = 0.
Proof.
  destruct r as [a b c]. intros Hr.
  destruct (Req_dec_T a 0) as [Ha | Ha]; [destruct (Req_dec_T b 0) as [Hb | Hb]|].
  - (* a = b = 0, so c <> 0 *)
    assert (Hc : c <> 0) by (intros ->; subst; apply Hr; reflexivity).
    exists (mkVec3 0 c (- b)). split; [|split].
    + intros E. injection E as E1 E2. contradiction.
    + cbv [dot vx vy vz]. ring.
    + intros [x y z]. cbv [cross vzero dot vx vy vz]. intros E.
      injection E as E1 E2 E3. lra.
  - exists (mkVec3 b (- a) 0). split; [|split].
    + intros E. injection E as E1 E2. contradiction.
    + cbv [dot vx vy vz]. ring.
    + intros [x y z]. cbv [cross vzero dot vx vy vz]. intros E.
      injection E as E1 E2 E3. lra.
  - exists (mkVec3 b (- a) 0). split; [|split].
    + intros E. injection E as E1 E2. lra.
    + cbv [dot vx vy vz]. ring.
    + intros [x y z]. cbv [cross vzero dot vx vy vz]. intros E.
      injection E as E1 E2 E3. lra.
Qed.

Definition row0 (K : Mat3) : Vec3 := mkVec3 (m00 K) (m01 K) (m02 K).
Definition row1 (K : Mat3) : Vec3 := mkVec3 (m10 K) (m11 K) (m12 K).
Definition row2 (K : Mat3) : Vec3 := mkVec3 (m20 K) (m21 K) (m22 K).

Lemma mvmul_rows (K : Mat3) (v : Vec3) :
  mvmul K v = mkVec3 (dot (row0 K) v) (dot (row1 K) v) (dot (row2 K) v).
Proof. reflexivity. Qed.

Lemma cross_antisym (a b : Vec3) : cross a b = vzero -> cross b a = vzero.
Proof.
  destruct a, b. cbv [cross vzero vx vy vz]. intros E. injection E as E1 E2 E3.
  f_equal; lra.
Qed.

Lemma cross_zero_l (b : Vec3) : cross vzero b = vzero.
Proof. destruct b. cbv [cross vzero vx vy vz]. f_equal; ring. Qed.

Lemma singular_kernel (K : Mat3) :
  det3 K = 0 -> exists v, v <> vzero /\ mvmul K v = vzero.
Proof.
  intros Hdet.
  set (r0 := row0 K). set (r1 := row1 K). set (r2 := row2 K).
  assert (HK : forall v, mvmul K v = mkVec3 (dot r0 v) (dot r1 v) (dot r2 v))
    by (intros v; apply mvmul_rows).
  assert (D0 : dot r0 (cross r1 r2) = 0)
    by (rewrite <- Hdet; destruct K; cbv [r0 r1 r2 row0 row1 row2 dot cross det3
          vx vy vz m00 m01 m02 m10 m11 m12 m20 m21 m22]; ring).
  assert (D1 : dot r1 (cross r2 r0) = 0)
    by (rewrite <- Hdet; destruct K; cbv [r0 r1 r2 row0 row1 row2 dot cross det3
          vx vy vz m00 m01 m02 m10 m11 m12 m20 m21 m22]; ring).
  assert (D2 : dot r2 (cross r0 r1) = 0)
    by (rewrite <- Hdet; destruct K; cbv [r0 r1 r2 row0 row1 row2 dot cross det3
          vx vy vz m00 m01 m02 m10 m11 m12 m20 m21 m22]; ring).
  assert (Perp : forall a b, dot a (cross a b) = 0 /\ dot b (cross a b) = 0)
    by (intros [] []; cbv [dot cross vx vy vz]; split; ring).
  clearbody r0 r1 r2. clear Hdet.
  destruct (Vec3_eq_dec (cross r1 r2) vzero) as [C0 | C0];
    [| exists (cross r1 r2); split; [exact C0|]; rewrite HK;
       destruct (Perp r1 r2) as [-> ->]; rewrite D0; reflexivity].
  destruct (Vec3_eq_dec (cross r2 r0) vzero) as [C1 | C1];
    [| exists (cross r2 r0); split; [exact C1|]; rewrite HK;
       destruct (Perp r2 r0) as [-> ->]; rewrite D1; reflexivity].
  destruct (Vec3_eq_dec (cross r0 r1) vzero) as [C2 | C2];
    [| exists (cross r0 r1); split; [exact C2|]; rewrite HK;
       destruct (Perp r0 r1) as [-> ->]; rewrite D2; reflexivity].
  (* the rows are pairwise parallel *)
  destruct (Vec3_eq_dec r0 vzero) as [Z0 | Z0];
    [destruct (Vec3_eq_dec r1 vzero) as [Z1 | Z1];
       [destruct (Vec3_eq_dec r2 vzero) as [Z2 | Z2]|]|].
  - exists (mkVec3 1 0 0). split.
    + intros E. injection E as E. lra.
    + rewrite HK. subst. cbv [dot vzero vx vy vz]. f_equal; ring.
  - destruct (perpendicular_exists r2 Z2) as (v & Hv & H2 & Hs).
    exists v. split; [exact Hv|]. rewrite HK.
    rewrite H2, (Hs r0), (Hs r1); [reflexivity | |]; subst; apply cross_zero_l.
  - destruct (perpendicular_exists r1 Z1) as (v & Hv & H1 & Hs).
    exists v. split; [exact Hv|]. rewrite HK.
    rewrite H1, (Hs r0), (Hs r2); [reflexivity | |];
      [apply cross_antisym; exact C0 | subst; apply cross_zero_l].
  - destruct (perpendicular_exists r0 Z0) as (v & Hv & H0 & Hs).
    exists v. split; [exact Hv|]. rewrite HK.
    rewrite H0, (Hs r1), (Hs r2); [reflexivity | |];
      [exact C1 | apply cross_antisym; exact C2].
Qed.

Lemma kernel_of_reduced_matrix (poses : PoseSet) (o : Vec3) :
  poses <> [] ->
  mvmul (reduced_matrix poses) o = vzero ->
  let p := vscale (/ INR (List.length poses)) (mvmul (sum_R poses) o) in
  Forall (fun P => pose_hom o p P = vzero) poses.
Proof.
  intros Hne HK p.
  assert (HN : INR (List.length poses) <> 0) by (apply INR_length_nonzero; exact Hne).
  assert (Hsum : sum_list (map (fun P => normsq (pose_hom o p P)) poses) = 0).
  { rewrite sum_hom_sq.
    assert (E1 : vsub (mvmul (sum_RtR poses) o) (mvmul (mtranspose (sum_R poses)) p) = vzero).
    { subst p. unfold reduced_matrix in HK. revert HK HN.
      generalize (sum_RtR poses) as S, (sum_R poses) as M, (INR (List.length poses)) as n.
      intros S M n HK HN. destruct S, M, o.
      cbv [vsub vscale mvmul msub mscale mmul mtranspose vzero vx vy vz
           m00 m01 m02 m10 m11 m12 m20 m21 m22] in *.
      injection HK as H1 H2 H3.
      f_equal; (apply (Rmult_eq_reg_l n); [|exact HN]); rewrite Rmult_0_r.
      - clear H2 H3. scalar_from_hyp HN.
      - clear H1 H3. scalar_from_hyp HN.
      - clear H1 H2. scalar_from_hyp HN. }
    assert (E2 : vsub (mvmul (sum_R poses) o) (vscale (INR (List.length poses)) p) = vzero).
    { subst p. revert HN.
      generalize (sum_R poses) as M, (INR (List.length poses)) as n.
      intros M n HN. destruct M, o.
      cbv [vsub vscale mvmul vzero vx vy vz m00 m01 m02 m10 m11 m12 m20 m21 m22].
      f_equal; field; exact HN. }
    rewrite E1, E2, !dot_vzero_r. ring. }
  apply sum_list_zero in Hsum.
  - rewrite Forall_map in Hsum. eapply Forall_impl; [|exact Hsum].
    intros P HP. apply normsq_zero_iff. exact HP.
  - rewrite Forall_map. apply Forall_forall. intros P _. apply normsq_nonneg.
Qed.

Lemma mat_vec_zero_iff (poses : PoseSet) (o p : Vec3) :
  Forall (fun r => r = 0) (mat_vec (stack_A poses) (unknowns o p)) <->
  Forall (fun P => pose_hom o p P = vzero) poses.
Proof.
  rewrite mat_vec_unknowns. induction poses as [|P rest IH]; cbn [flat_map app].
  - split; constructor.
  - cbv zeta. rewrite !Forall_cons_iff, IH.
    destruct (pose_hom o p P) as [x y z]; cbn [vx vy vz]. split.
    + intros (-> & -> & -> & H). split; [reflexivity | exact H].
    + intros [E H]. injection E as -> -> ->. repeat split; auto.
Qed.

(** A full-rank system has a least-squares solution. *)
Lemma least_squares_defined (poses : PoseSet) :
  poses <> [] -> full_column_rank poses ->
  exists o p, least_squares poses = Some (o, p).
Proof.
  intros Hne Hrank. unfold least_squares.
  destruct (Req_dec_T (det3 (reduced_matrix poses)) 0) as [Hz | Hnz]; [exfalso | eauto].
  destruct (singular_kernel _ Hz) as (o & Ho & HK).
  pose proof (kernel_of_reduced_matrix poses o Hne HK) as Hhom. cbv zeta in Hhom.
  apply mat_vec_zero_iff in Hhom.
  apply Hrank in Hhom; [|reflexivity].
  apply Ho. destruct o as [x y z]. unfold unknowns in Hhom. cbn [vx vy vz] in Hhom.
  inversion Hhom as [|? ? Hx Hz1]; subst. inversion Hz1 as [|? ? Hy Hz2]; subst.
  inversion Hz2 as [|? ? Hzz _]; subst. reflexivity.
Qed.

(** Non-singular normal equations mean full column rank. *)
Lemma nonsingular_full_rank (poses : PoseSet) :
  det3 (reduced_matrix poses) <> 0 -> full_column_rank poses.
Proof.
  intros Hnz x Hlen Hx.
  destruct (length6_unknowns x Hlen) as (o & p & ->).
  assert (Hhom : Forall (fun P => pose_hom o p P = vzero) poses)
    by (apply mat_vec_zero_iff; exact Hx).
  assert (Hsum : sum_list (map (fun P => normsq (pose_hom o p P)) poses) = 0).
  { clear -Hhom. unfold sum_list. induction Hhom as [|P rest HP _ IH]; [reflexivity|].
    cbn [map fold_right]. rewrite IH, HP. cbv [normsq dot vzero vx vy vz]. ring. }
  (* in vector form: M o = N p and S o = M^T p, hence K o = 0 *)
  assert (E2 : vsum (map (pose_hom o p) poses) = vzero).
  { clear -Hhom. unfold vsum. induction Hhom as [|P rest HP _ IH]; [reflexivity|].
    cbn [map fold_right]. rewrite IH, HP. apply vadd_vzero_r. }
  assert (E1 : vsum (map (fun P => mvmul (mtranspose (rot_block P)) (pose_hom o p P)) poses)
               = vzero).
  { clear -Hhom. unfold vsum. induction Hhom as [|P rest HP _ IH]; [reflexivity|].
    cbn [map fold_right]. rewrite IH, HP, mvmul_vzero. apply vadd_vzero_r. }
  assert (L2 : vsum (map (pose_hom o p) poses)
               = vsub (mvmul (sum_R poses) o) (vscale (INR (List.length poses)) p)).
  { clear. unfold sum_R, vsum, msum. induction poses as [|P rest IH].
    - cbn. destruct o, p. cbv [vsub vscale mvmul mzero vzero vx vy vz
        m00 m01 m02 m10 m11 m12 m20 m21 m22]. f_equal; ring.
    - cbn [map fold_right List.length]. rewrite IH, S_INR.
      generalize (fold_right madd mzero (map rot_block rest)) as M.
      generalize (INR (List.length rest)) as n. intros n M.
      destruct P as [Ri ti bi ci]. unfold pose_hom. cbn [rot_block].
      destruct Ri, M, o, p.
      cbv [vadd vsub vscale mvmul madd vx vy vz m00 m01 m02 m10 m11 m12 m20 m21 m22].
      f_equal; ring. }
  assert (L1 : vsum (map (fun P => mvmul (mtranspose (rot_block P)) (pose_hom o p P)) poses)
               = vsub (mvmul (sum_RtR poses) o) (mvmul (mtranspose (sum_R poses)) p)).
  { clear. unfold sum_RtR, sum_R, vsum, msum. induction poses as [|P rest IH].
    - cbn. destruct o, p. cbv [vsub mvmul mtranspose mzero vzero vx vy vz
        m00 m01 m02 m10 m11 m12 m20 m21 m22]. f_equal; ring.
    - cbn [map fold_right]. rewrite IH.
      generalize (fold_right madd mzero
                    (map (fun P0 => mmul (mtranspose (rot_block P0)) (rot_block P0)) rest)) as S.
      generalize (fold_right madd mzero (map rot_block rest)) as M. intros M S.
      destruct P as [Ri ti bi ci]. unfold pose_hom. cbn [rot_block].
      destruct Ri, M, S, o, p.
      cbv [vadd vsub mvmul madd mmul mtranspose vx vy vz
           m00 m01 m02 m10 m11 m12 m20 m21 m22].
      f_equal; ring. }
  rewrite L2 in E2. rewrite L1 in E1. clear L1 L2 Hsum Hx.
  assert (HKo : mvmul (reduced_matrix poses) o = vzero).
  { unfold reduced_matrix. revert E1 E2.
    generalize (sum_RtR poses) as S, (sum_R poses) as M, (INR (List.length poses)) as n.
    intros S M n E1 E2.
    destruct S, M as [a00 a01 a02 a10 a11 a12 a20 a21 a22], o, p.
    cbv [vsub vscale mvmul msub mscale mmul mtranspose vzero vx vy vz
         m00 m01 m02 m10 m11 m12 m20 m21 m22] in *.
    injection E1 as A1 A2 A3. injection E2 as B1 B2 B3.
    match type of B1 with ?lb1 = 0 =>
    match type of B2 with ?lb2 = 0 =>
    match type of B3 with ?lb3 = 0 =>
      f_equal;
      [ match type of A1 with ?la = 0 =>
          transitivity (n * la - (a00 * lb1 + a10 * lb2 + a20 * lb3)) end
      | match type of A2 with ?la = 0 =>
          transitivity (n * la - (a01 * lb1 + a11 * lb2 + a21 * lb3)) end
      | match type of A3 with ?la = 0 =>
          transitivity (n * la - (a02 * lb1 + a12 * lb2 + a22 * lb3)) end ];
      [ ring | rewrite ?A1, ?A2, ?A3, B1, B2, B3; ring
      | ring | rewrite ?A1, ?A2, ?A3, B1, B2, B3; ring
      | ring | rewrite ?A1, ?A2, ?A3, B1, B2, B3; ring ]
    end end end. }
  assert (Ho : o = vzero).
  { rewrite (solve3_unique _ vzero o Hnz HKo). unfold solve3.
    rewrite mvmul_vzero, vscale_vzero. reflexivity. }
  subst o.
  destruct poses as [|P rest].
  - exfalso. apply Hnz, reduced_matrix_nil.
  - inversion Hhom as [|? ? HP _]; subst. unfold pose_hom in HP.
    rewrite mvmul_vzero in HP. destruct p as [x y z].
    cbv [vsub vzero vx vy vz] in HP. injection HP as Hx Hy Hz.
    unfold unknowns. cbn [vx vy vz vzero].
    repeat constructor; lra.
Qed.

(** A rank-deficient system has none: some non-zero [x] has [A x = 0]. *)
Lemma least_squares_none (poses : PoseSet) :
  ~ full_column_rank poses -> least_squares poses = None.
Proof.
  intros Hnot. unfold least_squares.
  destruct (Req_dec_T (det3 (reduced_matrix poses)) 0) as [Hz | Hnz]; [reflexivity|].
  exfalso. apply Hnot. apply nonsingular_full_rank. exact Hnz.
Qed.

Lemma least_squares_full_rank (poses : PoseSet) (o p : Vec3) :
  least_squares poses = Some (o, p) -> full_column_rank poses.
Proof.
  unfold least_squares. destruct (Req_dec_T _ _) as [Hz | Hnz]; [discriminate|].
  intros _. apply nonsingular_full_rank. exact Hnz.
Qed.

(** The minimiser is unique. *)
Lemma least_squares_unique (poses : PoseSet) (o p : Vec3) :
  least_squares poses = Some (o, p) ->
  forall o' p', cost_vec poses o' p' <= cost_vec poses o p -> o' = o /\ p' = p.
Proof.
  intros H o' p' Hle.
  destruct (least_squares_normal_equations poses o p H) as [G2 G1].
  rewrite (cost_vec_expand poses o p o' p'), G1, G2, !dot_vzero_r in Hle.
  pose proof (sum_normsq_nonneg (pose_hom (vsub o' o) (vsub p' p)) poses) as Hnn.
  assert (Hsum : sum_list (map (fun P => normsq (pose_hom (vsub o' o) (vsub p' p) P)) poses)
                 = 0) by lra.
  apply sum_list_zero in Hsum;
    [| rewrite Forall_map; apply Forall_forall; intros P _; apply normsq_nonneg].
  rewrite Forall_map in Hsum.
  assert (Hhom : Forall (fun P => pose_hom (vsub o' o) (vsub p' p) P = vzero) poses).
  { eapply Forall_impl; [|exact Hsum]. intros P HP. apply normsq_zero_iff. exact HP. }
  apply mat_vec_zero_iff in Hhom.
  apply (least_squares_full_rank poses o p H) in Hhom; [|reflexivity].
  destruct o, p, o', p'. unfold unknowns in Hhom. cbv [vsub vx vy vz] in Hhom.
  inversion Hhom as [|? ? E1 H1]; subst. inversion H1 as [|? ? E2 H2]; subst.
  inversion H2 as [|? ? E3 H3]; subst. inversion H3 as [|? ? E4 H4]; subst.
  inversion H4 as [|? ? E5 H5]; subst. inversion H5 as [|? ? E6 _]; subst.
  split; f_equal; lra.
Qed.

(** *** When the solver returns *)

Lemma solve_pivot_inr (poses : PoseSet) (sol : PivotSolution) :
  solve_pivot poses = inr sol <->
  (min_poses <= List.length poses)%nat /\
  least_squares poses = Some (offset sol, pivot sol) /\
  residual sol = rms_about_centroid poses (offset sol).
Proof.
  unfold solve_pivot.
  destruct (Nat.ltb_spec (List.length poses) min_poses) as [Hlt | Hge].
  - split; [discriminate | intros [H _]; lia].
  - destruct (least_squares poses) as [[o p]|].
    + split.
      * intros H. injection H as <-. cbn. auto.
      * intros (_ & H & Hr). injection H as -> ->. destruct sol; cbn in *. subst.
        reflexivity.
    + split; [discriminate | intros (_ & H & _); discriminate].
Qed.

(** C2.  [solve_pivot] follows the Algebraic One Step formulation: the
    linear system it solves is the 3N-by-6 stack in which pose [i] fills the
    rows 3i, 3i+1, 3i+2 with the block [R_i] next to [-I_3], and the same
    rows of [b] with [-t_i]; with at least four poses and full column rank a
    solution is returned; and the offset and pivot of a returned solution
    are the least-squares solution of that system for the unknown
    [x = [offset; p]]: they minimise [|A x - b|^2], and nothing else does. *)
Theorem solve_pivot_is_algebraic_one_step (poses : PoseSet) :
  List.length (stack_A poses) = (3 * List.length poses)%nat /\
  Forall (fun row => List.length row = 6%nat) (stack_A poses) /\
  List.length (stack_b poses) = (3 * List.length poses)%nat /\
  (forall i P, nth_error poses i = Some P ->
     firstn 3 (skipn (3 * i) (stack_A poses))
     = [ [m00 (rot_block P); m01 (rot_block P); m02 (rot_block P); -1; 0; 0];
         [m10 (rot_block P); m11 (rot_block P); m12 (rot_block P); 0; -1; 0];
         [m20 (rot_block P); m21 (rot_block P); m22 (rot_block P); 0; 0; -1] ] /\
     firstn 3 (skipn (3 * i) (stack_b poses))
     = [- vx (trans_col P); - vy (trans_col P); - vz (trans_col P)]) /\
  ((4 <= List.length poses)%nat -> full_column_rank poses ->
     exists sol, solve_pivot poses = inr sol) /\
  (forall sol, solve_pivot poses = inr sol ->
     forall x, List.length x = 6%nat ->
       lsq_cost poses (unknowns (offset sol) (pivot sol)) <= lsq_cost poses x /\
       (lsq_cost poses x <= lsq_cost poses (unknowns (offset sol) (pivot sol)) ->
        x = unknowns (offset sol) (pivot sol))).
Proof.
  split; [apply stack_A_length|]. split; [apply stack_A_width|].
  split; [apply stack_b_length|]. split; [apply stack_block|]. split.
  - intros Hlen Hrank.
    destruct (least_squares_defined poses) as (o & p & E); [|exact Hrank|].
    + intros ->. cbn in Hlen. lia.
    + exists (mkPivotSolution o p (rms_about_centroid poses o)).
      apply solve_pivot_inr. cbn. unfold min_poses. auto.
  - intros sol Hsol x Hlen. apply solve_pivot_inr in Hsol as (_ & Hls & _).
    destruct (length6_unknowns x Hlen) as (o' & p' & ->).
    rewrite !lsq_cost_unknowns. split.
    + apply (least_squares_optimal poses _ _ Hls).
    + intros Hle. destruct (least_squares_unique poses _ _ Hls o' p' Hle) as [-> ->].
      reflexivity.
Qed.

(** *** Exact data

    When every pose puts the offset [o] exactly on the point [p], that is
    what the solver finds, with residual zero. *)

Lemma cost_vec_exact (poses : PoseSet) (o p : Vec3) :
  Forall (fun P => predict P o = p) poses -> cost_vec poses o p = 0.
Proof.
  unfold cost_vec, sum_list. induction 1 as [|P rest HP _ IH]; [reflexivity|].
  cbn [map fold_right]. rewrite IH.
  replace (pose_residual o p P) with vzero; [cbv [normsq dot vzero vx vy vz]; ring|].
  unfold predict in HP. unfold pose_residual. rewrite <- HP.
  destruct (mvmul (rot_block P) o), (trans_col P).
  cbv [vadd vsub vzero vx vy vz]. f_equal; ring.
Qed.

Lemma cost_vec_nonneg (poses : PoseSet) (o p : Vec3) : 0 <= cost_vec poses o p.
Proof. apply sum_normsq_nonneg. Qed.

Lemma rms_about_centroid_exact (poses : PoseSet) (o p : Vec3) :
  poses <> [] -> Forall (fun P => predict P o = p) poses ->
  rms_about_centroid poses o = 0.
Proof.
  intros Hne Hex. unfold rms_about_centroid.
  assert (Hmap : map (fun P => predict P o) poses = repeat p (List.length poses)).
  { clear Hne. induction Hex as [|P rest HP _ IH]; [reflexivity|].
    cbn. rewrite HP, IH. reflexivity. }
  rewrite Hmap.
  assert (Hc : centroid (repeat p (List.length poses)) = p).
  { unfold centroid. rewrite repeat_length.
    assert (Hs : vsum (repeat p (List.length poses)) = vscale (INR (List.length poses)) p).
    { clear. unfold vsum. induction (List.length poses) as [|n IH].
      - cbn. destruct p. cbv [vscale vzero vx vy vz]. f_equal; ring.
      - cbn [repeat fold_right]. rewrite IH, S_INR. destruct p.
        cbv [vadd vscale vx vy vz]. f_equal; ring. }
    rewrite Hs. pose proof (INR_length_nonzero poses Hne) as HN.
    destruct p. cbv [vscale vx vy vz]. f_equal; field; exact HN. }
  rewrite Hc, map_repeat.
  assert (Hd : dist p p = 0).
  { unfold dist, norm. replace (normsq (vsub p p)) with 0; [apply sqrt_0|].
    destruct p. cbv [normsq dot vsub vx vy vz]. ring. }
  rewrite Hd. unfold rms, sum_squares. rewrite repeat_length, map_repeat.
  replace (sum_list (repeat (0 * 0) (List.length poses))) with 0.
  - unfold Rdiv. rewrite Rmult_0_l. apply sqrt_0.
  - clear. unfold sum_list. generalize (List.length poses) as n.
    induction n as [|n IH]; cbn; [reflexivity|]. rewrite <- IH. ring.
Qed.

Lemma solve_pivot_exact (poses : PoseSet) (o p : Vec3) :
  (4 <= List.length poses)%nat ->
  det3 (reduced_matrix poses) <> 0 ->
  Forall (fun P => predict P o = p) poses ->
  solve_pivot poses = inr (mkPivotSolution o p 0).
Proof.
  intros Hlen Hdet Hex.
  assert (Hne : poses <> []) by (intros ->; cbn in Hlen; lia).
  destruct (least_squares_defined poses Hne (nonsingular_full_rank poses Hdet))
    as (o' & p' & Hls).
  assert (Hle : cost_vec poses o p <= cost_vec poses o' p').
  { rewrite (cost_vec_exact poses o p Hex). apply cost_vec_nonneg. }
  destruct (least_squares_unique poses o' p' Hls o p Hle) as [Eo Ep].
  subst o' p'. apply solve_pivot_inr. cbn [offset pivot residual]. unfold min_poses.
  split; [exact Hlen|]. split; [exact Hls|].
  symmetry. apply (rms_about_centroid_exact poses o p Hne Hex).
Qed.

(** Four poses of a tool whose tip, at (1, 2, 3) in the marker frame, rests
    on the point (10, 20, 30): upright, and turned by a quarter about z, x
    and y. *)
Definition example_poses : PoseSet :=
  [ mkMat4 (mkMat3 1 0 0  0 1 0  0 0 1) (mkVec3 9 18 27) vzero 1;
    mkMat4 (mkMat3 0 (-1) 0  1 0 0  0 0 1) (mkVec3 12 19 27) vzero 1;
    mkMat4 (mkMat3 1 0 0  0 0 (-1)  0 1 0) (mkVec3 9 23 28) vzero 1;
    mkMat4 (mkMat3 0 0 1  0 1 0  (-1) 0 0) (mkVec3 7 18 31) vzero 1 ].

Lemma example_poses_det : det3 (reduced_matrix example_poses) = 972.
Proof.
  cbv [example_poses reduced_matrix sum_RtR sum_R msum map fold_right List.length INR
       msub mscale mmul madd mtranspose mzero det3 rot_block
       m00 m01 m02 m10 m11 m12 m20 m21 m22].
  ring.
Qed.

Lemma example_poses_exact :
  Forall (fun P => predict P (mkVec3 1 2 3) = mkVec3 10 20 30) example_poses.
Proof.
  unfold example_poses.
  repeat constructor;
    cbv [predict vadd mvmul rot_block trans_col vx vy vz
         m00 m01 m02 m10 m11 m12 m20 m21 m22]; f_equal; ring.
Qed.

Example solve_pivot_example :
  solve_pivot example_poses = inr (mkPivotSolution (mkVec3 1 2 3) (mkVec3 10 20 30) 0).
Proof.
  apply solve_pivot_exact.
  - cbn. lia.
  - rewrite example_poses_det. lra.
  - apply example_poses_exact.
Qed.

Example solve_pivot_three_poses :
  solve_pivot (firstn 3 example_poses) = inl InsufficientDataError.
Proof. reflexivity. Qed.

Lemma solve_pivot_is_algebraic_one_step_witness :
  (4 <= List.length example_poses)%nat /\
  full_column_rank example_poses /\
  exists sol, solve_pivot example_poses = inr sol /\
    forall x, List.length x = 6%nat ->
      lsq_cost example_poses (unknowns (offset sol) (pivot sol))
      <= lsq_cost example_poses x.
Proof.
  assert (Hlen : (4 <= List.length example_poses)%nat) by (cbn; lia).
  assert (Hrank : full_column_rank example_poses)
    by (apply nonsingular_full_rank; rewrite example_poses_det; lra).
  split; [exact Hlen|]. split; [exact Hrank|].
  destruct (solve_pivot_is_algebraic_one_step example_poses)
    as (_ & _ & _ & _ & Hret & Hopt).
  destruct (Hret Hlen Hrank) as [sol Hsol].
  exists sol. split; [exact Hsol|].
  intros x Hx. apply (Hopt sol Hsol x Hx).
Defined.

End PivotCore.

(* ====================================================================== *)
(** ** The tracking-error notebook: pointer tip error against noise *)
(* ====================================================================== *)

Module TrackingSim.
Import Geometry.

Definition distance_from_tracker : R := 1500.

(** The four marker balls, in marker coordinates (rows of [marker_points]). *)
Definition marker_points : list Vec3 :=
  [ mkVec3 0 0 0; mkVec3 0 0 50; mkVec3 0 25 100; mkVec3 0 (-25) 135 ].

(** The same balls as the tracker sees them (rows of [triangulated_points]). *)
Definition triangulated_points : list Vec3 :=
  [ mkVec3 0 0 (- distance_from_tracker);
    mkVec3 0 50 (- distance_from_tracker);
    mkVec3 25 100 (- distance_from_tracker);
    mkVec3 (-25) 135 (- distance_from_tracker) ].

Definition length_of_pointer_from_origin : R := 150.

Definition pointer_tip : Vec3 := mkVec3 0 0 (- length_of_pointer_from_origin).

Definition number_samples : nat := 2000.

(** [sigma = sigma_counter / 10]. *)
Definition sigma_of (sigma_counter : nat) : R := INR sigma_counter / 10.

Section Simulation.

(** Python's global [random] generator and [random.normalvariate(mu, sigma)]. *)
Variable PyRandom : Type.
Variable normalvariate : R -> R -> PyRandom -> R * PyRandom.

(** [pro.orthogonal_procrustes(fixed, moving)] of [sksurgerycore]: returns
    rotation, translation and fiducial registration error. *)
Variable orthogonal_procrustes : list Vec3 -> list Vec3 -> Mat3 * Vec3 * R.

Definition Sim (A : Type) : Type := PyRandom -> A * PyRandom.

Definition sret {A : Type} (x : A) : Sim A := fun g => (x, g).

Definition sbind {A B : Type} (c : Sim A) (k : A -> Sim B) : Sim B :=
  fun g => let (x, g') := c g in k x g'.

Notation "x <- c ;; k" := (sbind c (fun x => k))
  (at level 61, c at next level, right associativity).

(** [np.matmul(R, np.transpose(pointer_tip)) + t]. *)
Definition tip_of (registration : Mat3 * Vec3 * R) : Vec3 :=
  vadd (mvmul (fst (fst registration)) pointer_tip) (snd (fst registration)).

Definition pointer_in_tracker_coordinates : Vec3 :=
  tip_of (orthogonal_procrustes triangulated_points marker_points).

(** One row of the double loop over [r] and [c]:
    [corrupted_points[r][c] = triangulated_points[r][c] + normalvariate(0, sigma)]. *)
Definition corrupt_point (sigma : R) (q : Vec3) : Sim Vec3 :=
  ex <- normalvariate 0 sigma ;;
  ey <- normalvariate 0 sigma ;;
  ez <- normalvariate 0 sigma ;;
  sret (mkVec3 (vx q + ex) (vy q + ey) (vz q + ez)).

Fixpoint corrupt_points (sigma : R) (pts : list Vec3) : Sim (list Vec3) :=
  match pts with
  | [] => sret []
  | q :: rest =>
      q' <- corrupt_point sigma q ;;
      rest' <- corrupt_points sigma rest ;;
      sret (q' :: rest')
  end.

(** The body of the loop over the samples: it adds one squared tip error to
    the running sum [rms]. *)
Definition one_sample (sigma : R) (rms : R) : Sim R :=
  corrupted_points <- corrupt_points sigma triangulated_points ;;
  let tip_position := tip_of (orthogonal_procrustes corrupted_points marker_points) in
  let diff := norm (vsub tip_position pointer_in_tracker_coordinates) in
  let diff := diff * diff in
  sret (rms + diff).

Fixpoint sample_loop (n : nat) (sigma : R) (rms : R) : Sim R :=
  match n with
  | O => sret rms
  | S k => rms' <- one_sample sigma rms ;; sample_loop k sigma rms'
  end.

(** The body of the loop over [sigma_counter]: the RMS tip error at one
    noise level. *)
Definition rms_at (sigma : R) : Sim R :=
  rms <- sample_loop number_samples sigma 0 ;;
  let rms := rms / INR number_samples in
  sret (sqrt rms).

Fixpoint sweep (sigma_counters : list nat) : Sim (list R * list R) :=
  match sigma_counters with
  | [] => sret ([], [])
  | sigma_counter :: rest =>
      y <- rms_at (sigma_of sigma_counter) ;;
      xy <- sweep rest ;;
      sret (sigma_of sigma_counter :: fst xy, y :: snd xy)
  end.

(** The plotted curve: [x_values] and [y_values] for
    [sigma_counter in range(0, 10, 1)]. *)
Definition simulation : Sim (list R * list R) := sweep (seq 0 10).

(** A normal deviate with standard deviation zero is its mean. *)
Definition normalvariate_contract : Prop :=
  forall mu g, fst (normalvariate mu 0 g) = mu.

Hypothesis normalvariate_ok : normalvariate_contract.

Lemma corrupt_points_no_noise (pts : list Vec3) (g : PyRandom) :
  fst (corrupt_points 0 pts g) = pts.
Proof.
  revert g. induction pts as [|q rest IH]; intros g; [reflexivity|].
  cbn [corrupt_points]. unfold sbind at 1. unfold corrupt_point.
  unfold sbind at 1.
  pose proof (normalvariate_ok 0 g) as E1.
  destruct (normalvariate 0 0 g) as [ex g1]. cbn [fst] in E1. subst ex.
  unfold sbind at 1.
  pose proof (normalvariate_ok 0 g1) as E2.
  destruct (normalvariate 0 0 g1) as [ey g2]. cbn [fst] in E2. subst ey.
  unfold sbind at 1.
  pose proof (normalvariate_ok 0 g2) as E3.
  destruct (normalvariate 0 0 g2) as [ez g3]. cbn [fst] in E3. subst ez.
  unfold sret at 1. unfold sbind at 1.
  specialize (IH g3). destruct (corrupt_points 0 rest g3) as [rest' g4].
  cbn [fst] in IH. subst rest'. unfold sret. cbn [fst].
  destruct q. cbn [vx vy vz]. rewrite !Rplus_0_r. reflexivity.
Qed.

Lemma one_sample_no_noise (rms : R) (g : PyRandom) :
  fst (one_sample 0 rms g) = rms.
Proof.
  unfold one_sample, sbind.
  pose proof (corrupt_points_no_noise triangulated_points g) as E.
  destruct (corrupt_points 0 triangulated_points g) as [pts g1]. cbn [fst] in E. subst pts.
  unfold sret. cbn [fst]. fold pointer_in_tracker_coordinates.
  replace (vsub pointer_in_tracker_coordinates pointer_in_tracker_coordinates) with vzero
    by (destruct pointer_in_tracker_coordinates; cbv [vsub vzero vx vy vz]; f_equal; ring).
  unfold norm. replace (normsq vzero) with 0 by (cbv [normsq dot vzero vx vy vz]; ring).
  rewrite sqrt_0. ring.
Qed.

Lemma sample_loop_no_noise (n : nat) (rms : R) (g : PyRandom) :
  fst (sample_loop n 0 rms g) = rms.
Proof.
  revert rms g. induction n as [|k IH]; intros rms g; [reflexivity|].
  cbn [sample_loop]. unfold sbind.
  pose proof (one_sample_no_noise rms g) as E.
  destruct (one_sample 0 rms g) as [rms' g1]. cbn [fst] in E. subst rms'.
  apply IH.
Qed.

(** Without noise the tip does not move: the first point of the curve is
    (0, 0), whatever the registration routine returns. *)
Lemma rms_at_no_noise (g : PyRandom) : fst (rms_at (sigma_of 0) g) = 0.
Proof.
  unfold sigma_of. replace (INR 0 / 10) with 0 by (cbn; lra).
  unfold rms_at, sbind.
  pose proof (sample_loop_no_noise number_samples 0 g) as E.
  destruct (sample_loop number_samples 0 0 g) as [rms g1]. cbn [fst] in E. subst rms.
  unfold sret. cbn [fst]. unfold Rdiv. rewrite Rmult_0_l. apply sqrt_0.
Qed.

Lemma sweep_shape (sigma_counters : list nat) :
  forall g xs ys g', sweep sigma_counters g = (xs, ys, g') ->
    xs = map sigma_of sigma_counters /\
    List.length ys = List.length sigma_counters /\
    Forall (fun y => 0 <= y) ys.
Proof.
  induction sigma_counters as [|c rest IH]; intros g xs ys g' H.
  - cbn in H. unfold sret in H. injection H as <- <- _. repeat split; constructor.
  - cbn [sweep] in H. unfold sbind at 1 in H.
    assert (Hy : 0 <= fst (rms_at (sigma_of c) g)).
    { unfold rms_at, sbind. destruct (sample_loop _ _ _ g) as [s g0].
      unfold sret. cbn [fst]. apply sqrt_pos. }
    destruct (rms_at (sigma_of c) g) as [y g1]. cbn [fst] in Hy.
    unfold sbind at 1 in H.
    destruct (sweep rest g1) as [[xs1 ys1] g2] eqn:E.
    destruct (IH g1 xs1 ys1 g2 E) as (Hx & Hl & Hn).
    unfold sret in H. cbn [fst snd] in H. injection H as <- <- _.
    split; [cbn; congruence|]. split; [cbn; lia | constructor; assumption].
Qed.

(** The curve starts at zero error for zero noise and never goes below it:
    ten noise levels 0, 0.1, ..., 0.9, each with a non-negative RMS error,
    the first one zero, whatever the registration routine returns. *)
Lemma simulation_curve (g g' : PyRandom) (xs ys : list R) :
  simulation g = (xs, ys, g') ->
  xs = map sigma_of (seq 0 10) /\
  List.length ys = 10%nat /\
  nth 0 ys 1 = 0 /\
  Forall (fun y => nth 0 ys 1 <= y) ys.
Proof.
  intros H. destruct (sweep_shape (seq 0 10) g xs ys g' H) as (Hx & Hl & Hn).
  assert (H0 : nth 0 ys 1 = 0).
  { unfold simulation in H. change (seq 0 10) with (0%nat :: seq 1 9) in H.
    cbn [sweep] in H. unfold sbind at 1 in H.
    pose proof (rms_at_no_noise g) as E.
    destruct (rms_at (sigma_of 0) g) as [y g1]. cbn [fst] in E. subst y.
    unfold sbind at 1 in H. destruct (sweep (seq 1 9) g1) as [[xs1 ys1] g2].
    unfold sret in H. injection H as _ <- _. reflexivity. }
  rewrite H0. repeat split; assumption.
Qed.

End Simulation.

(** *** The pointer as a lever

    The tip lies on the line through the first two balls of the marker,
    three ball distances beyond the first: whatever a registration returns,
    it puts the tip where it puts those two balls, extended by that lever. *)

(** Where a registration puts a point of the marker: [R q + t]. *)
Definition fitted (registration : Mat3 * Vec3 * R) (q : Vec3) : Vec3 :=
  vadd (mvmul (fst (fst registration)) q) (snd (fst registration)).

Definition origin_ball : Vec3 := nth 0 marker_points vzero.

Definition shaft_ball : Vec3 := nth 1 marker_points vzero.

Lemma lever_norm (a b : Vec3) :
  norm (vsub (vscale 4 a) (vscale 3 b)) <= 4 * norm a + 3 * norm b.
Proof.
  pose proof (norm_nonneg a) as Ha. pose proof (norm_nonneg b) as Hb.
  apply norm_le_of_normsq; [lra|].
  pose proof (neg_dot_le_norms a b) as Hd.
  pose proof (norm_sqr a) as Sa. pose proof (norm_sqr b) as Sb.
  assert (E : normsq (vsub (vscale 4 a) (vscale 3 b))
              = 16 * normsq a + 24 * (- dot a b) + 9 * normsq b).
  { destruct a, b. cbv [normsq dot vsub vscale vx vy vz]. ring. }
  rewrite E, <- Sa, <- Sb. nra.
Qed.

(** For every registration, the tip is at [4 * origin - 3 * shaft] of the
    fitted balls.  So the tip error of a sample, against the reference
    registration, is [4 * d0 - 3 * d1] for the displacements [d0], [d1] of
    the two fitted balls, at most [4 |d0| + 3 |d1|] long; and a registration
    that puts these two balls on their triangulated positions puts the tip
    at (0, -150, -1500). *)
Lemma tip_lever_arm (registration reference : Mat3 * Vec3 * R) :
  let d0 := vsub (fitted registration origin_ball) (fitted reference origin_ball) in
  let d1 := vsub (fitted registration shaft_ball) (fitted reference shaft_ball) in
  tip_of registration
  = vsub (vscale 4 (fitted registration origin_ball))
         (vscale 3 (fitted registration shaft_ball)) /\
  vsub (tip_of registration) (tip_of reference) = vsub (vscale 4 d0) (vscale 3 d1) /\
  norm (vsub (tip_of registration) (tip_of reference)) <= 4 * norm d0 + 3 * norm d1 /\
  (fitted registration origin_ball = nth 0 triangulated_points vzero ->
   fitted registration shaft_ball = nth 1 triangulated_points vzero ->
   tip_of registration = mkVec3 0 (-150) (-1500)).
Proof.
  intros d0 d1.
  assert (Htip : forall reg, tip_of reg
            = vsub (vscale 4 (fitted reg origin_ball)) (vscale 3 (fitted reg shaft_ball))).
  { intros [[[r00 r01 r02 r10 r11 r12 r20 r21 r22] [t0 t1 t2]] fre].
    cbv [tip_of fitted origin_ball shaft_ball marker_points pointer_tip
         length_of_pointer_from_origin nth fst snd vadd vsub vscale mvmul vzero
         vx vy vz m00 m01 m02 m10 m11 m12 m20 m21 m22].
    f_equal; ring. }
  assert (Hdiff : vsub (tip_of registration) (tip_of reference)
                  = vsub (vscale 4 d0) (vscale 3 d1)).
  { rewrite (Htip registration), (Htip reference). unfold d0, d1.
    destruct (fitted registration origin_ball), (fitted registration shaft_ball),
      (fitted reference origin_ball), (fitted reference shaft_ball).
    cbv [vsub vscale vx vy vz]. f_equal; ring. }
  split; [apply Htip|]. split; [exact Hdiff|]. split.
  - rewrite Hdiff. apply lever_norm.
  - intros H0 H1. rewrite (Htip registration), H0, H1.
    cbv [triangulated_points distance_from_tracker nth vsub vscale vx vy vz].
    f_equal; ring.
Qed.

(** The noise levels increase strictly. *)
Lemma sigma_of_increasing (i j : nat) : (i < j)%nat -> sigma_of i < sigma_of j.
Proof. intros H. unfold sigma_of. apply lt_INR in H. lra. Qed.

(** The registration the notebook prints (up to rounding): a change of axes
    and a shift along z.  It maps each marker ball onto its triangulated
    position and the pointer tip to (0, -150, -1500). *)
Definition printed_rotation : Mat3 := mkMat3 0 1 0  0 0 1  1 0 0.
Definition printed_translation : Vec3 := mkVec3 0 0 (-1500).


(** Stand-ins for a run: a deviate one standard deviation above the mean,
    and a registration routine that returns the printed registration. *)
Definition one_sigma_above (mu sigma : R) (g : unit) : R * unit := (mu + sigma, g).

Definition printed_procrustes (fixed moving : list Vec3) : Mat3 * Vec3 * R :=
  (printed_rotation, printed_translation, 0).

Lemma one_sigma_above_contract : normalvariate_contract unit one_sigma_above.
Proof. intros mu g. cbn. ring. Qed.

Lemma simulation_curve_witness :
  exists xs ys g',
    simulation unit one_sigma_above printed_procrustes tt = (xs, ys, g') /\
    xs = map sigma_of (seq 0 10) /\
    List.length ys = 10%nat /\
    nth 0 ys 1 = 0 /\
    Forall (fun y => nth 0 ys 1 <= y) ys.
Proof.
  destruct (simulation unit one_sigma_above printed_procrustes tt) as [[xs ys] g'] eqn:E.
  exists xs, ys, g'. split; [reflexivity|].
  apply (simulation_curve unit one_sigma_above printed_procrustes
           one_sigma_above_contract tt g' xs ys E).
Defined.

Lemma tip_lever_arm_witness :
  tip_of (printed_rotation, printed_translation, 0) = mkVec3 0 (-150) (-1500).
Proof.
  destruct (tip_lever_arm (printed_rotation, printed_translation, 0)
              (printed_rotation, printed_translation, 0)) as (_ & _ & _ & H).
  apply H;
    cbv [fitted origin_ball shaft_ball marker_points triangulated_points
         distance_from_tracker printed_rotation printed_translation nth fst snd
         vadd mvmul vzero vx vy vz m00 m01 m02 m10 m11 m12 m20 m21 m22];
    f_equal; ring.
Defined.

End TrackingSim.

(* ====================================================================== *)
(** ** The Monte Carlo notebook: time to write two reports *)
(* ====================================================================== *)

Module MonteCarlo.

Definition sims : nat := Z.to_nat 100000.

(** The one exception the notebook's own expressions can raise. *)
Inductive PyExc : Type :=
| TypeError.

(** What the variable [duration_samples] can hold: after Option 1 a Python
    list of arrays (one array of shape (1,) per sample), after Option 2 an
    array of shape (sims,). *)
Inductive PyValue : Type :=
| PyList (items : list (list R))
| NdArray (values : list R).

(** How NumPy's reductions see either: [np.asarray], read in row order. *)
Definition as_array (v : PyValue) : list R :=
  match v with
  | PyList items => concat items
  | NdArray values => values
  end.

Definition sum_list (l : list R) : R := fold_right Rplus 0 l.

Definition mean (l : list R) : R := sum_list l / INR (List.length l).

(** The population standard deviation: the root of the mean squared
    deviation from the mean. *)
Definition std (l : list R) : R :=
  let arrmean := mean l in
  sqrt (mean (map (fun x => (x - arrmean) * (x - arrmean)) l)).

(** [np.mean] and [np.std] (of a non-empty argument; NumPy answers nan for
    an empty one, which the reals do not have). *)
Definition np_mean (v : PyValue) : R := mean (as_array v).

Definition np_std (v : PyValue) : R := std (as_array v).

(** [(samples > threshold).sum()] on an array. *)
Definition count_over (threshold : R) (samples : list R) : nat :=
  List.length (filter (fun d => if Rlt_dec threshold d then true else false) samples).

(** [duration_samples > threshold]: element-wise on an array; a Python list
    does not compare with a number. *)
Definition greater_than (v : PyValue) (threshold : R) : PyExc + list bool :=
  match v with
  | PyList _ => inl TypeError
  | NdArray values =>
      inr (map (fun d => if Rlt_dec threshold d then true else false) values)
  end.

(** [flags.sum()]. *)
Definition count_true (flags : list bool) : nat :=
  List.length (filter (fun b => b) flags).

(** [(duration_samples > 9).sum() / sims]. *)
Definition probability_over_9 (duration_samples : PyValue) : PyExc + R :=
  match greater_than duration_samples 9 with
  | inl e => inl e
  | inr flags => inr (INR (count_true flags) / INR sims)
  end.

(** *** Rounding *)

(** Round to the nearest integer, halves to the even neighbour. *)
Definition rint (x : R) : Z :=
  let f := Int_part x in
  let d := x - IZR f in
  if Rlt_dec d (1 / 2) then f
  else if Rlt_dec (1 / 2) d then (f + 1)%Z
  else if Z.even f then f else (f + 1)%Z.

(** [np.round(x, decimals)]: scale, round to the nearest integer, scale back. *)
Definition np_round (x : R) (decimals : nat) : R :=
  IZR (rint (x * 10 ^ decimals)) / 10 ^ decimals.

(** *** Percentiles *)

Fixpoint insert_sorted (x : R) (l : list R) : list R :=
  match l with
  | [] => [x]
  | y :: rest => if Rle_dec x y then x :: l else y :: insert_sorted x rest
  end.

(** The values in increasing order. *)
Definition np_sort (l : list R) : list R := fold_right insert_sorted [] l.

Definition floor_index (x : R) : nat := Z.to_nat (Int_part x).

(** [np.percentile(a, q)] with the default (linear) method: the value at the
    virtual index [(n - 1) * q / 100] of the sorted data, interpolated
    between its two neighbours.  [None]: [q] outside [0, 100], which raises,
    or no data, for which there is no percentile. *)
Definition percentile (a : list R) (q : R) : option R :=
  match np_sort a with
  | [] => None
  | (first :: _) as arr =>
      if Rle_dec 0 q then
        if Rle_dec q 100 then
          let n := List.length arr in
          let virtual_index := q / 100 * INR (n - 1) in
          let previous := floor_index virtual_index in
          let next := Nat.min (previous + 1) (n - 1) in
          let gamma := virtual_index - INR previous in
          let below := nth previous arr first in
          let above := nth next arr first in
          Some (below + (above - below) * gamma)
        else None
      else None
  end.

(** *** Confidence limits *)

(** Method 1, the empirical rule: (rounded mean, low, high). *)
Definition confidence_by_empirical_rule (duration_samples : PyValue) : R * R * R :=
  let mean_of_total_times := np_mean duration_samples in
  let std_dev_of_total_times := np_std duration_samples in
  let low := np_round (mean_of_total_times - 196 / 100 * std_dev_of_total_times) 2 in
  let high := np_round (mean_of_total_times + 196 / 100 * std_dev_of_total_times) 2 in
  (np_round mean_of_total_times 2, low, high).

(** Method 2, by simulation: the central 95% of the data. *)
Definition confidence_by_simulation (duration_samples : PyValue) : option (R * R * R) :=
  match percentile (as_array duration_samples) (25 / 10),
        percentile (as_array duration_samples) (975 / 10) with
  | Some p_low, Some p_high =>
      let low := np_round p_low 2 in
      let high := np_round p_high 2 in
      let mean_of_means := np_round (np_mean duration_samples) 2 in
      Some (mean_of_means, low, high)
  | _, _ => None
  end.

Section Sampling.

(** NumPy's global generator and one draw of [np.random.uniform(low, high)]. *)
Variable NpRandom : Type.
Variable uniform : R -> R -> NpRandom -> R * NpRandom.

Definition Draw (A : Type) : Type := NpRandom -> A * NpRandom.

(** [np.random.uniform(low, high, size=n)]: an array of [n] draws. *)
Fixpoint uniform_array (low high : R) (n : nat) : Draw (list R) :=
  fun g =>
    match n with
    | O => ([], g)
    | S k =>
        let (x, g1) := uniform low high g in
        let (rest, g2) := uniform_array low high k g1 in
        (x :: rest, g2)
    end.

(** Element-wise [a + b] of two arrays of one shape. *)
Fixpoint add_arrays (a b : list R) : list R :=
  match a, b with
  | x :: a', y :: b' => (x + y) :: add_arrays a' b'
  | _, _ => []
  end.

(** Option 1: the loop, which draws A and B in turn for every sample and
    appends the one-element array [A_sample + B_sample] to a list. *)
Fixpoint duration_samples_loop (n : nat) : Draw (list (list R)) :=
  fun g =>
    match n with
    | O => ([], g)
    | S k =>
        let (A_sample, g1) := uniform_array 1 5 1 g in
        let (B_sample, g2) := uniform_array 2 6 1 g1 in
        let duration_sample := add_arrays A_sample B_sample in
        let (rest, g3) := duration_samples_loop k g2 in
        (duration_sample :: rest, g3)
    end.

(** Option 2: arrays, which draw all of A and then all of B. *)
Definition duration_samples_array (n : nat) : Draw (list R) :=
  fun g =>
    let (A_samples, g1) := uniform_array 1 5 n g in
    let (B_samples, g2) := uniform_array 2 6 n g1 in
    (add_arrays A_samples B_samples, g2).

(** [duration_samples] after each of the two cells. *)
Definition option_1 : Draw PyValue :=
  fun g => let (items, g') := duration_samples_loop sims g in (PyList items, g').

Definition option_2 : Draw PyValue :=
  fun g => let (values, g') := duration_samples_array sims g in (NdArray values, g').

(** [np.random.uniform] draws from the half-open interval [low, high). *)
Definition uniform_contract : Prop :=
  forall low high g, low < high -> low <= fst (uniform low high g) < high.

Hypothesis uniform_ok : uniform_contract.

Definition plausible (d : R) : Prop := 3 <= d < 11.

Lemma uniform_array_range (low high : R) (n : nat) (g : NpRandom) :
  low < high ->
  List.length (fst (uniform_array low high n g)) = n /\
  Forall (fun x => low <= x < high) (fst (uniform_array low high n g)).
Proof.
  intros Hlt. revert g.
  induction n as [|k IH]; intros g; [split; [reflexivity | constructor]|].
  cbn [uniform_array].
  pose proof (uniform_ok low high g Hlt) as Hx.
  destruct (uniform low high g) as [x g1]. cbn [fst] in Hx.
  specialize (IH g1). destruct (uniform_array low high k g1) as [rest g2].
  cbn [fst] in *. destruct IH as [Hl Hr].
  split; [cbn; lia | constructor; assumption].
Qed.

Lemma add_arrays_range (a b : list R) :
  List.length a = List.length b ->
  Forall (fun x => 1 <= x < 5) a -> Forall (fun x => 2 <= x < 6) b ->
  List.length (add_arrays a b) = List.length a /\ Forall plausible (add_arrays a b).
Proof.
  revert b. induction a as [|x a IH]; intros [|y b] Hlen Ha Hb; cbn in Hlen;
    try discriminate; [split; [reflexivity | constructor]|].
  inversion Ha as [|? ? Hx Ha']; subst. inversion Hb as [|? ? Hy Hb']; subst.
  destruct (IH b ltac:(lia) Ha' Hb') as [Hl Hr].
  split; [cbn; lia|]. cbn. constructor; [unfold plausible; lra | exact Hr].
Qed.

Lemma duration_samples_loop_range (n : nat) (g : NpRandom) :
  List.length (concat (fst (duration_samples_loop n g))) = n /\
  Forall plausible (concat (fst (duration_samples_loop n g))).
Proof.
  revert g. induction n as [|k IH]; intros g; [split; [reflexivity | constructor]|].
  cbn [duration_samples_loop].
  destruct (uniform_array_range 1 5 1 g ltac:(lra)) as [HlA HA].
  destruct (uniform_array 1 5 1 g) as [A_sample g1]. cbn [fst] in HlA, HA.
  destruct (uniform_array_range 2 6 1 g1 ltac:(lra)) as [HlB HB].
  destruct (uniform_array 2 6 1 g1) as [B_sample g2]. cbn [fst] in HlB, HB.
  destruct (add_arrays_range A_sample B_sample ltac:(lia) HA HB) as [Hl Hr].
  specialize (IH g2). destruct (duration_samples_loop k g2) as [rest g3].
  cbn [fst concat] in *. destruct IH as [IHl IHr].
  split; [rewrite length_app; lia | apply Forall_app; split; assumption].
Qed.

Lemma duration_samples_array_range (n : nat) (g : NpRandom) :
  List.length (fst (duration_samples_array n g)) = n /\
  Forall plausible (fst (duration_samples_array n g)).
Proof.
  unfold duration_samples_array.
  destruct (uniform_array_range 1 5 n g ltac:(lra)) as [HlA HA].
  destruct (uniform_array 1 5 n g) as [A_samples g1]. cbn [fst] in *.
  destruct (uniform_array_range 2 6 n g1 ltac:(lra)) as [HlB HB].
  destruct (uniform_array 2 6 n g1) as [B_samples g2]. cbn [fst] in *.
  destruct (add_arrays_range A_samples B_samples ltac:(lia) HA HB) as [Hl Hr].
  split; [lia | exact Hr].
Qed.

Lemma option_1_samples (g : NpRandom) :
  (exists items, fst (option_1 g) = PyList items) /\
  List.length (as_array (fst (option_1 g))) = sims /\
  Forall plausible (as_array (fst (option_1 g))).
Proof.
  unfold option_1.
  pose proof (duration_samples_loop_range sims g) as H.
  destruct (duration_samples_loop sims g) as [items g']. cbn [fst as_array] in *.
  split; [eauto | exact H].
Qed.

Lemma option_2_samples (g : NpRandom) :
  (exists values, fst (option_2 g) = NdArray values) /\
  List.length (as_array (fst (option_2 g))) = sims /\
  Forall plausible (as_array (fst (option_2 g))).
Proof.
  unfold option_2.
  pose proof (duration_samples_array_range sims g) as H.
  destruct (duration_samples_array sims g) as [values g']. cbn [fst as_array] in *.
  split; [eauto | exact H].
Qed.

End Sampling.

(** *** Sums and means *)

Lemma INR_length_pos {A : Type} (l : list A) : l <> [] -> 0 < INR (List.length l).
Proof.
  destruct l; [congruence|]. intros _. cbn [List.length]. rewrite S_INR.
  pose proof (pos_INR (List.length l)). lra.
Qed.

Lemma sum_list_bounds (l : list R) (lo hi : R) :
  Forall (fun d => lo <= d < hi) l ->
  lo * INR (List.length l) <= sum_list l <= hi * INR (List.length l).
Proof.
  unfold sum_list. induction 1 as [|d l Hd _ IH]; [cbn; lra|].
  cbn [fold_right List.length]. rewrite S_INR. nra.
Qed.

Lemma mean_plausible (l : list R) (lo hi : R) :
  l <> [] -> Forall (fun d => lo <= d < hi) l -> lo <= mean l <= hi.
Proof.
  intros Hne Hl. pose proof (sum_list_bounds l lo hi Hl) as [H1 H2].
  pose proof (INR_length_pos l Hne) as Hn.
  unfold mean. split.
  - apply Rmult_le_reg_r with (INR (List.length l)); [exact Hn|].
    unfold Rdiv. rewrite Rmult_assoc, Rinv_l; lra.
  - apply Rmult_le_reg_r with (INR (List.length l)); [exact Hn|].
    unfold Rdiv. rewrite Rmult_assoc, Rinv_l; lra.
Qed.

Lemma count_over_le (threshold : R) (samples : list R) :
  (count_over threshold samples <= List.length samples)%nat.
Proof. unfold count_over. apply filter_length_le. Qed.

Lemma count_true_le (flags : list bool) :
  (count_true flags <= List.length flags)%nat.
Proof. unfold count_true. apply filter_length_le. Qed.

Lemma count_true_map (threshold : R) (values : list R) :
  count_true (map (fun d => if Rlt_dec threshold d then true else false) values)
  = count_over threshold values.
Proof.
  unfold count_true, count_over. induction values as [|d values IH]; [reflexivity|].
  cbn [map filter]. destruct (Rlt_dec threshold d); cbn [List.length]; congruence.
Qed.

Lemma sims_pos : 0 < INR sims.
Proof. apply lt_0_INR. unfold sims. lia. Qed.

Lemma probability_of_array (values : list R) :
  probability_over_9 (NdArray values) = inr (INR (count_over 9 values) / INR sims).
Proof.
  unfold probability_over_9, greater_than. rewrite count_true_map. reflexivity.
Qed.

Lemma share_bounds (values : list R) :
  List.length values = sims ->
  0 <= INR (count_over 9 values) / INR sims <= 1.
Proof.
  intros Hl. pose proof (count_over_le 9 values) as Hc. rewrite Hl in Hc.
  apply le_INR in Hc.
  pose proof (pos_INR (count_over 9 values)) as Hp. pose proof sims_pos as Hs.
  split.
  - apply Rmult_le_reg_r with (INR sims); [exact Hs|].
    unfold Rdiv. rewrite Rmult_assoc, Rinv_l; lra.
  - apply Rmult_le_reg_r with (INR sims); [exact Hs|].
    unfold Rdiv. rewrite Rmult_assoc, Rinv_l; lra.
Qed.

Lemma sims_nonempty (l : list R) : List.length l = sims -> l <> [].
Proof. intros Hl ->. cbn in Hl. unfold sims in Hl. lia. Qed.

(** *** The spread of bounded data *)

Lemma sum_squared_deviations (l : list R) (a b m : R) :
  Forall (fun x => a <= x < b) l ->
  sum_list (map (fun x => (x - m) * (x - m)) l)
  <= (a + b - 2 * m) * sum_list l + INR (List.length l) * (m * m - a * b).
Proof.
  unfold sum_list. induction 1 as [|x l Hx _ IH]; [cbn; lra|].
  cbn [map fold_right List.length]. rewrite S_INR. nra.
Qed.

Lemma sum_squares_nonneg (l : list R) (m : R) :
  0 <= sum_list (map (fun x => (x - m) * (x - m)) l).
Proof.
  unfold sum_list. induction l as [|x l IH]; [cbn [map fold_right]; lra|].
  cbn [map fold_right]. pose proof (Rle_0_sqr (x - m)) as Hsq. unfold Rsqr in Hsq. lra.
Qed.

(** Data between [a] and [b] have a standard deviation of at most half the
    range. *)
Lemma std_bounds (l : list R) (a b : R) :
  l <> [] -> Forall (fun x => a <= x < b) l ->
  0 <= std l <= (b - a) / 2.
Proof.
  intros Hne Hl. unfold std. split; [apply sqrt_pos|].
  pose proof (INR_length_pos l Hne) as Hn.
  pose proof (mean_plausible l a b Hne Hl) as Hm.
  pose proof (sum_squared_deviations l a b (mean l) Hl) as Hs.
  assert (Ea : a <= b) by lra.
  assert (Esum : sum_list l = mean l * INR (List.length l)).
  { unfold mean. field. lra. }
  rewrite <- (sqrt_square ((b - a) / 2)) by lra.
  apply sqrt_le_1_alt.
  unfold mean at 1. rewrite length_map.
  apply Rmult_le_reg_r with (INR (List.length l)); [exact Hn|].
  unfold Rdiv at 1. rewrite Rmult_assoc, Rinv_l, Rmult_1_r by lra.
  rewrite Esum in Hs. set (m := mean l) in *. set (n := INR (List.length l)) in *.
  assert (Hq : (a + b - 2 * m) * (m * n) + n * (m * m - a * b)
               = n * ((m - a) * (b - m))) by ring.
  assert (Hr : (m - a) * (b - m) <= (b - a) / 2 * ((b - a) / 2)).
  { pose proof (Rle_0_sqr ((a + b) / 2 - m)) as Hsq. unfold Rsqr in Hsq.
    replace ((b - a) / 2 * ((b - a) / 2))
      with ((m - a) * (b - m) + ((a + b) / 2 - m) * ((a + b) / 2 - m)) by field.
    lra. }
  rewrite Hq in Hs.
  apply (Rmult_le_compat_l n) in Hr; [|lra]. lra.
Qed.

(** *** Rounding *)

Lemma rint_error (x : R) : - (1 / 2) <= IZR (rint x) - x <= 1 / 2.
Proof.
  unfold rint. destruct (base_Int_part x) as [H1 H2].
  set (f := Int_part x) in *.
  destruct (Rlt_dec (x - IZR f) (1 / 2)).
  - lra.
  - destruct (Rlt_dec (1 / 2) (x - IZR f)).
    + rewrite plus_IZR. lra.
    + destruct (Z.even f); [|rewrite plus_IZR]; lra.
Qed.

Lemma Int_part_mono (x y : R) : x <= y -> (Int_part x <= Int_part y)%Z.
Proof.
  intros H. destruct (base_Int_part x) as [Hx1 Hx2], (base_Int_part y) as [Hy1 Hy2].
  assert (Hlt : IZR (Int_part x) < IZR (Int_part y + 1)) by (rewrite plus_IZR; lra).
  apply lt_IZR in Hlt. lia.
Qed.

Lemma rint_mono (x y : R) : x <= y -> (rint x <= rint y)%Z.
Proof.
  intros H. pose proof (Int_part_mono x y H) as Hf.
  destruct (base_Int_part x) as [Hx1 Hx2], (base_Int_part y) as [Hy1 Hy2].
  assert (Hx : (Int_part x <= rint x <= Int_part x + 1)%Z).
  { unfold rint. repeat match goal with |- context [if ?c then _ else _] => destruct c end; lia. }
  assert (Hy : (Int_part y <= rint y <= Int_part y + 1)%Z).
  { unfold rint. repeat match goal with |- context [if ?c then _ else _] => destruct c end; lia. }
  destruct (Z.eq_dec (Int_part x) (Int_part y)) as [E | NE]; [|lia].
  clear Hx Hy. unfold rint. rewrite <- E. set (f := Int_part x) in *.
  rewrite <- E in Hy1, Hy2.
  destruct (Rlt_dec (x - IZR f) (1 / 2)), (Rlt_dec (y - IZR f) (1 / 2)),
    (Rlt_dec (1 / 2) (x - IZR f)), (Rlt_dec (1 / 2) (y - IZR f));
    try lra; destruct (Z.even f); lia.
Qed.

Lemma pow10_pos (decimals : nat) : 0 < 10 ^ decimals.
Proof. apply pow_lt. lra. Qed.

Lemma np_round_mono (x y : R) (decimals : nat) :
  x <= y -> np_round x decimals <= np_round y decimals.
Proof.
  intros H. unfold np_round. pose proof (pow10_pos decimals) as Hp.
  apply Rmult_le_compat_r; [left; apply Rinv_0_lt_compat; exact Hp|].
  apply IZR_le, rint_mono. nra.
Qed.

Lemma np_round_error (x : R) : - (1 / 200) <= np_round x 2 - x <= 1 / 200.
Proof.
  unfold np_round. pose proof (rint_error (x * 10 ^ 2)) as H.
  replace (10 ^ 2) with 100 in * by (cbn; ring). lra.
Qed.

Lemma rint_IZR (z : Z) : rint (IZR z) = z.
Proof.
  unfold rint.
  assert (E : Int_part (IZR z) = z) by (symmetry; apply Int_part_spec; lra).
  rewrite E. destruct (Rlt_dec (IZR z - IZR z) (1 / 2)); [reflexivity | lra].
Qed.

Lemma np_round_whole (z : Z) : np_round (IZR z) 2 = IZR z.
Proof.
  unfold np_round. replace (10 ^ 2) with (IZR 100) by (cbn; lra).
  rewrite <- mult_IZR, rint_IZR, mult_IZR. field.
Qed.

(** *** Sorting and percentiles *)

Lemma insert_sorted_Forall (P : R -> Prop) (x : R) (l : list R) :
  P x -> Forall P l -> Forall P (insert_sorted x l).
Proof.
  intros Hx. induction 1 as [|y l Hy Hl IH]; cbn; [repeat constructor; exact Hx|].
  destruct (Rle_dec x y); repeat constructor; assumption.
Qed.

Lemma np_sort_Forall (P : R -> Prop) (l : list R) :
  Forall P l -> Forall P (np_sort l).
Proof.
  unfold np_sort. induction 1 as [|x l Hx Hl IH]; [constructor|].
  cbn [fold_right]. apply insert_sorted_Forall; assumption.
Qed.

Lemma insert_sorted_length (x : R) (l : list R) :
  List.length (insert_sorted x l) = S (List.length l).
Proof.
  induction l as [|y l IH]; [reflexivity|]. cbn.
  destruct (Rle_dec x y); cbn; [reflexivity | rewrite IH; reflexivity].
Qed.

Lemma np_sort_length (l : list R) : List.length (np_sort l) = List.length l.
Proof.
  unfold np_sort. induction l as [|x l IH]; [reflexivity|].
  cbn [fold_right]. rewrite insert_sorted_length. cbn. rewrite IH. reflexivity.
Qed.

(** A list in increasing order: every member is at most the ones after it. *)
Fixpoint increasing (l : list R) : Prop :=
  match l with
  | [] => True
  | x :: rest => Forall (fun y => x <= y) rest /\ increasing rest
  end.

Lemma insert_sorted_increasing (x : R) (l : list R) :
  increasing l -> increasing (insert_sorted x l).
Proof.
  induction l as [|y l IH]; intros H; [cbn; split; [constructor | exact I]|].
  destruct H as [Hy Hl]. cbn [insert_sorted]. destruct (Rle_dec x y) as [Hxy | Hxy].
  - cbn [increasing]. split; [|split; assumption].
    constructor; [exact Hxy|].
    eapply Forall_impl; [|exact Hy]. cbn. intros z Hz. lra.
  - cbn [increasing]. split; [|apply IH; exact Hl].
    apply insert_sorted_Forall; [lra | exact Hy].
Qed.

Lemma np_sort_increasing (l : list R) : increasing (np_sort l).
Proof.
  unfold np_sort. induction l as [|x l IH]; [exact I|].
  cbn [fold_right]. apply insert_sorted_increasing. exact IH.
Qed.

Lemma increasing_nth (l : list R) (d : R) :
  increasing l ->
  forall i j, (i <= j)%nat -> (j < List.length l)%nat -> nth i l d <= nth j l d.
Proof.
  induction l as [|x l IH]; intros H i j Hij Hj; [cbn in Hj; lia|].
  destruct H as [Hx Hl]. destruct i as [|i], j as [|j]; cbn [nth]; try lra; try lia.
  - rewrite Forall_forall in Hx. apply Hx. apply nth_In. cbn in Hj. lia.
  - apply IH; [exact Hl | lia | cbn in Hj; lia].
Qed.

Lemma floor_index_spec (x : R) :
  0 <= x -> INR (floor_index x) <= x < INR (floor_index x) + 1.
Proof.
  intros Hx. unfold floor_index. destruct (base_Int_part x) as [H1 H2].
  assert (Hz : (0 <= Int_part x)%Z).
  { assert (Hlt : IZR (-1) < IZR (Int_part x)) by lra. apply lt_IZR in Hlt. lia. }
  rewrite INR_IZR_INZ, Z2Nat.id by exact Hz. lra.
Qed.

Lemma floor_index_mono (x y : R) :
  0 <= x -> x <= y -> (floor_index x <= floor_index y)%nat.
Proof.
  intros Hx Hxy. unfold floor_index. apply Z2Nat.inj_le.
  - destruct (base_Int_part x) as [H1 H2].
    assert (Hlt : IZR (-1) < IZR (Int_part x)) by lra. apply lt_IZR in Hlt. lia.
  - destruct (base_Int_part y) as [H1 H2].
    assert (Hlt : IZR (-1) < IZR (Int_part y)) by lra. apply lt_IZR in Hlt. lia.
  - apply Int_part_mono. exact Hxy.
Qed.

Lemma floor_index_le (x : R) (n : nat) :
  0 <= x -> x <= INR n -> (floor_index x <= n)%nat.
Proof.
  intros Hx Hn. destruct (floor_index_spec x Hx) as [H1 _].
  apply INR_le. lra.
Qed.

(** The value interpolated at a virtual index of sorted data: the formula of
    [percentile] once the data are sorted. *)
Definition interpolate (arr : list R) (first : R) (virtual_index : R) : R :=
  let previous := floor_index virtual_index in
  let next := Nat.min (previous + 1) (List.length arr - 1) in
  let gamma := virtual_index - INR previous in
  nth previous arr first + (nth next arr first - nth previous arr first) * gamma.

Lemma interpolate_between (arr : list R) (first x : R) :
  increasing arr -> arr <> [] -> 0 <= x <= INR (List.length arr - 1) ->
  nth (floor_index x) arr first <= interpolate arr first x
  <= nth (Nat.min (floor_index x + 1) (List.length arr - 1)) arr first.
Proof.
  intros Hinc Hne [Hx0 Hxn]. unfold interpolate.
  destruct (floor_index_spec x Hx0) as [Hf1 Hf2].
  pose proof (floor_index_le x _ Hx0 Hxn) as Hp.
  assert (Hlen : (0 < List.length arr)%nat) by (destruct arr; [congruence | cbn; lia]).
  pose proof (increasing_nth arr first Hinc (floor_index x)
                (Nat.min (floor_index x + 1) (List.length arr - 1))
                ltac:(lia) ltac:(lia)) as Hle.
  nra.
Qed.

Lemma interpolate_mono (arr : list R) (first x y : R) :
  increasing arr -> arr <> [] -> 0 <= x -> x <= y -> y <= INR (List.length arr - 1) ->
  interpolate arr first x <= interpolate arr first y.
Proof.
  intros Hinc Hne Hx Hxy Hy.
  assert (Hlen : (0 < List.length arr)%nat) by (destruct arr; [congruence | cbn; lia]).
  pose proof (floor_index_mono x y Hx Hxy) as Hm.
  pose proof (floor_index_le y _ ltac:(lra) Hy) as Hpy.
  destruct (Nat.eq_dec (floor_index x) (floor_index y)) as [E | NE].
  - unfold interpolate. rewrite <- E.
    destruct (floor_index_spec x Hx) as [Hf1 Hf2].
    pose proof (increasing_nth arr first Hinc (floor_index x)
                  (Nat.min (floor_index x + 1) (List.length arr - 1))
                  ltac:(lia) ltac:(lia)) as Hle.
    nra.
  - destruct (interpolate_between arr first x Hinc Hne ltac:(lra)) as [_ Hux].
    destruct (interpolate_between arr first y Hinc Hne ltac:(lra)) as [Hly _].
    pose proof (increasing_nth arr first Hinc
                  (Nat.min (floor_index x + 1) (List.length arr - 1)) (floor_index y)
                  ltac:(lia) ltac:(lia)) as Hle.
    lra.
Qed.

Lemma interpolate_range (arr : list R) (first x lo hi : R) :
  Forall (fun d => lo <= d < hi) arr -> arr <> [] ->
  0 <= x <= INR (List.length arr - 1) ->
  lo <= interpolate arr first x < hi.
Proof.
  intros Hall Hne [Hx0 Hxn]. unfold interpolate.
  destruct (floor_index_spec x Hx0) as [Hf1 Hf2].
  pose proof (floor_index_le x _ Hx0 Hxn) as Hp.
  assert (Hlen : (0 < List.length arr)%nat) by (destruct arr; [congruence | cbn; lia]).
  rewrite Forall_forall in Hall.
  pose proof (Hall _ (nth_In arr first (n := floor_index x) ltac:(lia))) as Ha.
  pose proof (Hall _ (nth_In arr first
                        (n := Nat.min (floor_index x + 1) (List.length arr - 1))
                        ltac:(lia))) as Hb.
  set (u := nth (floor_index x) arr first) in *.
  set (v := nth (Nat.min (floor_index x + 1) (List.length arr - 1)) arr first) in *.
  set (gm := x - INR (floor_index x)) in *.
  assert (Hg : 0 <= gm < 1) by (unfold gm; lra).
  replace (u + (v - u) * gm) with ((1 - gm) * u + gm * v) by ring.
  split; nra.
Qed.

Lemma virtual_index_range (n : nat) (q : R) :
  0 <= q <= 100 -> 0 <= q / 100 * INR n <= INR n.
Proof. intros Hq. pose proof (pos_INR n). split; nra. Qed.

Lemma percentile_interpolate (a : list R) (q : R) :
  a <> [] -> 0 <= q <= 100 ->
  percentile a q
  = Some (interpolate (np_sort a) 0 (q / 100 * INR (List.length (np_sort a) - 1))).
Proof.
  intros Hne Hq. unfold percentile.
  destruct (np_sort a) as [|first rest] eqn:E.
  - pose proof (np_sort_length a) as Hl. rewrite E in Hl.
    destruct a; [congruence | discriminate].
  - destruct (Rle_dec 0 q); [|lra]. destruct (Rle_dec q 100); [|lra].
    unfold interpolate. f_equal.
    set (n := List.length (first :: rest)).
    destruct (virtual_index_range (n - 1) q Hq) as [H0 H1].
    pose proof (floor_index_le _ _ H0 H1) as Hp.
    assert (Hn : (0 < n)%nat) by (unfold n; cbn; lia).
    rewrite (nth_indep (first :: rest) first 0
               (n := floor_index (q / 100 * INR (n - 1)))) by (fold n; lia).
    rewrite (nth_indep (first :: rest) first 0
               (n := Nat.min (floor_index (q / 100 * INR (n - 1)) + 1) (n - 1)))
      by (fold n; lia).
    reflexivity.
Qed.

(** The two percentiles of Method 2 lie in the range of the data, in order. *)
Lemma percentiles_ordered (a : list R) (lo hi : R) :
  a <> [] -> Forall (fun d => lo <= d < hi) a ->
  exists p_low p_high,
    percentile a (25 / 10) = Some p_low /\
    percentile a (975 / 10) = Some p_high /\
    lo <= p_low /\ p_low <= p_high /\ p_high < hi.
Proof.
  intros Hne Hall.
  rewrite (percentile_interpolate a (25 / 10) Hne) by lra.
  rewrite (percentile_interpolate a (975 / 10) Hne) by lra.
  do 2 eexists. split; [reflexivity|]. split; [reflexivity|].
  assert (Hne' : np_sort a <> []).
  { intros E. pose proof (np_sort_length a) as Hl. rewrite E in Hl.
    destruct a; [congruence | discriminate]. }
  pose proof (np_sort_Forall _ a Hall) as Hall'.
  pose proof (np_sort_increasing a) as Hinc.
  set (arr := np_sort a) in *. set (n1 := (List.length arr - 1)%nat).
  destruct (virtual_index_range n1 (25 / 10) ltac:(lra)) as [Ha0 Ha1].
  destruct (virtual_index_range n1 (975 / 10) ltac:(lra)) as [Hb0 Hb1].
  pose proof (pos_INR n1) as Hn1.
  split; [apply (interpolate_range arr 0 _ lo hi Hall' Hne'); split; assumption|].
  split; [|apply (interpolate_range arr 0 _ lo hi Hall' Hne'); split; assumption].
  apply interpolate_mono; try assumption. nra.
Qed.

(** *** What the cells print *)

Section Outcome.

Variable NpRandom : Type.
Variable uniform : R -> R -> NpRandom -> R * NpRandom.
Hypothesis uniform_ok : uniform_contract NpRandom uniform.

(** Whichever of the two programming styles is used, there are [sims]
    samples, each at least 3 and less than 11 hours, and the printed mean
    lies between 3 and 11. *)
Lemma monte_carlo_outcome (g : NpRandom) :
  let by_loop := fst (option_1 NpRandom uniform g) in
  let by_array := fst (option_2 NpRandom uniform g) in
  List.length (as_array by_loop) = sims /\ List.length (as_array by_array) = sims /\
  Forall plausible (as_array by_loop) /\ Forall plausible (as_array by_array) /\
  3 <= np_mean by_loop <= 11 /\ 3 <= np_mean by_array <= 11.
Proof.
  intros by_loop by_array.
  destruct (option_1_samples NpRandom uniform uniform_ok g) as (_ & Hl1 & Hr1).
  destruct (option_2_samples NpRandom uniform uniform_ok g) as (_ & Hl2 & Hr2).
  fold by_loop in Hl1, Hr1. fold by_array in Hl2, Hr2.
  split; [exact Hl1|]. split; [exact Hl2|]. split; [exact Hr1|]. split; [exact Hr2|].
  split; unfold np_mean; apply (mean_plausible _ 3 11);
    first [apply sims_nonempty; assumption | assumption].
Qed.

(** The probability of going over nine hours can be computed from the array
    of Option 2 only: there it is the share of the [sims] samples above 9, a
    number between 0 and 1; on the list that Option 1 leaves behind the
    comparison with 9 raises [TypeError]. *)
Lemma probability_needs_the_array (g : NpRandom) :
  probability_over_9 (fst (option_1 NpRandom uniform g)) = inl TypeError /\
  exists values p,
    fst (option_2 NpRandom uniform g) = NdArray values /\
    probability_over_9 (fst (option_2 NpRandom uniform g)) = inr p /\
    p = INR (count_over 9 values) / INR sims /\
    (count_over 9 values <= sims)%nat /\
    0 <= p <= 1.
Proof.
  split.
  - destruct (option_1_samples NpRandom uniform uniform_ok g) as ((items & E) & _).
    rewrite E. reflexivity.
  - destruct (option_2_samples NpRandom uniform uniform_ok g) as ((values & E) & Hl & _).
    rewrite E in *. cbn [as_array] in Hl.
    exists values, (INR (count_over 9 values) / INR sims).
    split; [reflexivity|]. split; [apply probability_of_array|].
    split; [reflexivity|].
    split; [rewrite <- Hl; apply count_over_le | apply share_bounds; exact Hl].
Qed.

End Outcome.

(** Method 1 on data between 3 and 11 hours: the interval contains the
    printed mean and reaches at most 7.85 hours to either side of it. *)
Lemma empirical_rule_interval (duration_samples : PyValue) :
  as_array duration_samples <> [] ->
  Forall plausible (as_array duration_samples) ->
  let '(mean_of_total_times, low, high) :=
    confidence_by_empirical_rule duration_samples in
  3 <= mean_of_total_times <= 11 /\
  low <= mean_of_total_times <= high /\
  mean_of_total_times - 785 / 100 <= low /\
  high <= mean_of_total_times + 785 / 100.
Proof.
  intros Hne Hall. unfold confidence_by_empirical_rule, np_mean, np_std.
  pose proof (mean_plausible _ 3 11 Hne Hall) as Hm.
  pose proof (std_bounds _ 3 11 Hne Hall) as Hs.
  set (m := mean (as_array duration_samples)) in *.
  set (s := std (as_array duration_samples)) in *.
  pose proof (np_round_mono 3 m 2 ltac:(lra)) as H3.
  pose proof (np_round_mono m 11 2 ltac:(lra)) as H11.
  rewrite (np_round_whole 3) in H3. rewrite (np_round_whole 11) in H11.
  pose proof (np_round_mono (m - 196 / 100 * s) m 2 ltac:(lra)) as Hlow.
  pose proof (np_round_mono m (m + 196 / 100 * s) 2 ltac:(lra)) as Hhigh.
  pose proof (np_round_error m) as Em.
  pose proof (np_round_error (m - 196 / 100 * s)) as El.
  pose proof (np_round_error (m + 196 / 100 * s)) as Eh.
  repeat split; lra.
Qed.

(** Method 2 on data between 3 and 11 hours: the interval is well defined,
    its ends are in order and, unlike those of Method 1, they stay between
    3 and 11. *)
Lemma simulation_interval (duration_samples : PyValue) :
  as_array duration_samples <> [] ->
  Forall plausible (as_array duration_samples) ->
  exists mean_of_means low high,
    confidence_by_simulation duration_samples = Some (mean_of_means, low, high) /\
    3 <= low /\ low <= high /\ high <= 11 /\
    3 <= mean_of_means <= 11.
Proof.
  intros Hne Hall. unfold confidence_by_simulation.
  destruct (percentiles_ordered _ 3 11 Hne Hall) as (p_low & p_high & E1 & E2 & H1 & H2 & H3).
  rewrite E1, E2. do 3 eexists. split; [reflexivity|].
  pose proof (mean_plausible _ 3 11 Hne Hall) as Hm. fold (np_mean duration_samples) in Hm.
  pose proof (np_round_whole 3) as R3. pose proof (np_round_whole 11) as R11.
  pose proof (np_round_mono 3 p_low 2 H1).
  pose proof (np_round_mono p_low p_high 2 H2).
  pose proof (np_round_mono p_high 11 2 ltac:(lra)).
  pose proof (np_round_mono 3 (np_mean duration_samples) 2 ltac:(lra)).
  pose proof (np_round_mono (np_mean duration_samples) 11 2 ltac:(lra)).
  repeat split; lra.
Qed.

Lemma sum_list_app (l1 l2 : list R) : sum_list (l1 ++ l2) = sum_list l1 + sum_list l2.
Proof.
  unfold sum_list. induction l1 as [|x l1 IH]; cbn [app fold_right]; [lra|].
  rewrite IH. lra.
Qed.

Lemma sum_list_repeat (x : R) (k : nat) : sum_list (repeat x k) = INR k * x.
Proof.
  unfold sum_list. induction k as [|k IH]; [cbn; lra|].
  cbn [repeat fold_right]. rewrite IH, S_INR. lra.
Qed.

Lemma mean_two_halves (x y : R) (k : nat) :
  (0 < k)%nat -> mean (repeat x k ++ repeat y k) = (x + y) / 2.
Proof.
  intros Hk. unfold mean.
  rewrite sum_list_app, !sum_list_repeat, length_app, !repeat_length, plus_INR.
  apply lt_0_INR in Hk. field. lra.
Qed.

(** Method 1 can leave the range of the data: with half of the [sims]
    samples at 3.5 hours and half at 10.5, its lower end is below 3 hours,
    which no sample can be. *)
Lemma empirical_rule_can_leave_the_range :
  exists duration_samples,
    List.length (as_array duration_samples) = sims /\
    Forall plausible (as_array duration_samples) /\
    snd (fst (confidence_by_empirical_rule duration_samples)) < 3.
Proof.
  set (k := Z.to_nat 50000).
  assert (Hk : (0 < k)%nat) by (unfold k; lia).
  exists (NdArray (repeat (35 / 10) k ++ repeat (105 / 10) k)).
  cbn [as_array]. split; [|split].
  - rewrite length_app, !repeat_length. unfold k, sims. lia.
  - apply Forall_app. split; apply Forall_forall; intros d Hd;
      apply repeat_spec in Hd; subst d; unfold plausible; lra.
  - unfold confidence_by_empirical_rule, np_mean, np_std, as_array. cbn [fst snd].
    assert (Em : mean (repeat (35 / 10) k ++ repeat (105 / 10) k) = 7).
    { rewrite mean_two_halves by exact Hk. field. }
    assert (Es : std (repeat (35 / 10) k ++ repeat (105 / 10) k) = 35 / 10).
    { unfold std. rewrite Em, map_app, !map_repeat, mean_two_halves by exact Hk.
      replace (((35 / 10 - 7) * (35 / 10 - 7) + (105 / 10 - 7) * (105 / 10 - 7)) / 2)
        with ((35 / 10) * (35 / 10)) by field.
      apply sqrt_square. lra. }
    rewrite Em, Es.
    pose proof (np_round_error (7 - 196 / 100 * (35 / 10))). lra.
Qed.

(** A generator stuck in the middle of every interval. *)
Definition midpoint (low high : R) (g : unit) : R * unit := ((low + high) / 2, g).

Lemma midpoint_contract : uniform_contract unit midpoint.
Proof. intros low high g H. cbn. lra. Qed.

Lemma monte_carlo_outcome_witness :
  let by_loop := fst (option_1 unit midpoint tt) in
  let by_array := fst (option_2 unit midpoint tt) in
  List.length (as_array by_loop) = sims /\ List.length (as_array by_array) = sims /\
  Forall plausible (as_array by_loop) /\ Forall plausible (as_array by_array) /\
  3 <= np_mean by_loop <= 11 /\ 3 <= np_mean by_array <= 11.
Proof. exact (monte_carlo_outcome unit midpoint midpoint_contract tt). Defined.

Lemma probability_needs_the_array_witness :
  probability_over_9 (fst (option_1 unit midpoint tt)) = inl TypeError /\
  exists values p,
    fst (option_2 unit midpoint tt) = NdArray values /\
    probability_over_9 (fst (option_2 unit midpoint tt)) = inr p /\
    p = INR (count_over 9 values) / INR sims /\
    (count_over 9 values <= sims)%nat /\
    0 <= p <= 1.
Proof. exact (probability_needs_the_array unit midpoint midpoint_contract tt). Defined.

Lemma plausible_example : Forall plausible [4; 6; 8; 10].
Proof. repeat constructor; unfold plausible; lra. Qed.

Lemma empirical_rule_interval_witness :
  let '(mean_of_total_times, low, high) :=
    confidence_by_empirical_rule (NdArray [4; 6; 8; 10]) in
  3 <= mean_of_total_times <= 11 /\
  low <= mean_of_total_times <= high /\
  mean_of_total_times - 785 / 100 <= low /\
  high <= mean_of_total_times + 785 / 100.
Proof.
  apply (empirical_rule_interval (NdArray [4; 6; 8; 10])).
  - discriminate.
  - exact plausible_example.
Defined.

Lemma simulation_interval_witness :
  exists mean_of_means low high,
    confidence_by_simulation (NdArray [4; 6; 8; 10]) = Some (mean_of_means, low, high) /\
    3 <= low /\ low <= high /\ high <= 11 /\
    3 <= mean_of_means <= 11.
Proof.
  apply (simulation_interval (NdArray [4; 6; 8; 10])).
  - discriminate.
  - exact plausible_example.
Defined.

End MonteCarlo.
